(** * scripts/check_migration_rollbacks.py: the migration rollback linter

    A shallow embedding of the script and of the part of its environment
    it touches: a POSIX directory tree with permissions and dangling
    symbolic links, [pathlib] as CPython 3.11 implements it, and the two
    output streams.  The properties of [main] follow.

    Conventions of the embedding.
    - A Python [str] is the list of its code points.  A file name is the
      [str] that [os.scandir] hands to the program: a name that is not
      valid UTF-8 carries the lone surrogates U+DC80..U+DCFF that stand for
      its undecodable bytes.  File contents are bytes.
    - A [pathlib.Path] is absolute and is the list of its components below
      the root ["/"].  Paths are POSIX paths: comparison is case
      sensitive.
    - Python's [int] exit code is a [Z].
    - Standard output is a strict UTF-8 text stream and standard error
      escapes what it cannot encode, as CPython sets them up under a UTF-8
      locale.  A stream is the text written to it so far.
    - Effects are threaded through a state-and-exception monad [M] over a
      [world]: the directory tree, the two streams and the log of
      filesystem accesses. *)

From Stdlib Require Import ZArith.
From Stdlib.Strings Require Import Ascii Byte.
From Stdlib Require String.
From stdpp Require Import base list strings sorting gmap.

(** ** Exceptions and results *)

Inductive exn : Type :=
| FileNotFoundError
| NotADirectoryError
| PermissionError
| IsADirectoryError
| UnicodeDecodeError
| UnicodeEncodeError
| ValueError.

Inductive outcome (A : Type) : Type :=
| Returned (a : A)
| Raised (e : exn).
Arguments Returned {A} a.
Arguments Raised {A} e.

(** ** Text *)

Definition str : Type := list N.

(** An ASCII literal of the script as a [str]. *)
Definition py (s : string) : str :=
  (fun c => N_of_ascii c) <$> String.list_ascii_of_string s.

Definition LF : N := 10.
Definition CR : N := 13.

(** Lexicographic comparison of two sequences, the way Python compares
    [str] values (by code point) and lists (element by element). *)
Fixpoint lex_compare {A} (cmp : A -> A -> comparison) (a b : list A) : comparison :=
  match a, b with
  | [], [] => Eq
  | [], _ :: _ => Lt
  | _ :: _, [] => Gt
  | x :: a', y :: b' =>
    match cmp x y with
    | Eq => lex_compare cmp a' b'
    | c => c
    end
  end.

(** [a < b], [a == b], [a > b] on [str]. *)
Definition str_compare : str -> str -> comparison := lex_compare N.compare.

(** [s.startswith(prefix)]. *)
Fixpoint startswith (s prefix : str) {struct prefix} : bool :=
  match prefix with
  | [] => true
  | p :: prefix' =>
    match s with
    | [] => false
    | c :: s' => N.eqb p c && startswith s' prefix'
    end
  end.

(** [needle in hay] on [str]: [needle] occurs at some position of [hay]. *)
Fixpoint str_in (needle hay : str) : bool :=
  startswith hay needle ||
  match hay with
  | [] => false
  | _ :: hay' => str_in needle hay'
  end.

(** [s.endswith(suffix)]. *)
Fixpoint endswith (s suffix : str) : bool :=
  bool_decide (s = suffix) ||
  match s with
  | [] => false
  | _ :: s' => endswith s' suffix
  end.

Definition in_range (lo hi : N) (b : byte) : bool :=
  (lo <=? Byte.to_N b)%N && (Byte.to_N b <=? hi)%N.

Definition is_cont (b : byte) : bool := in_range 128 191 b.

(** The six payload bits of a continuation byte. *)
Definition cont (b : byte) : N := (Byte.to_N b - 128)%N.

(** The range of the second byte after the lead byte [b0] of a three-byte
    or four-byte sequence: shortest forms only, no surrogates, nothing
    above U+10FFFF. *)
Definition second_ok (b0 b1 : byte) : bool :=
  if in_range 224 224 b0 then in_range 160 191 b1
  else if in_range 237 237 b0 then in_range 128 159 b1
  else if in_range 240 240 b0 then in_range 144 191 b1
  else if in_range 244 244 b0 then in_range 128 143 b1
  else is_cont b1.

(** [bytes.decode("utf-8")], strict: nothing when the bytes are not
    UTF-8. *)
Fixpoint utf8_decode (bs : list byte) : option str :=
  match bs with
  | [] => Some []
  | b0 :: r0 =>
    if in_range 0 127 b0 then cons (Byte.to_N b0) <$> utf8_decode r0
    else match r0 with
    | [] => None
    | b1 :: r1 =>
      if in_range 194 223 b0 then
        if is_cont b1
        then cons ((Byte.to_N b0 - 192) * 64 + cont b1)%N <$> utf8_decode r1
        else None
      else match r1 with
      | [] => None
      | b2 :: r2 =>
        if in_range 224 239 b0 then
          if second_ok b0 b1 && is_cont b2
          then cons ((Byte.to_N b0 - 224) * 4096 + cont b1 * 64 + cont b2)%N
                 <$> utf8_decode r2
          else None
        else match r2 with
        | [] => None
        | b3 :: r3 =>
          if in_range 240 244 b0 then
            if second_ok b0 b1 && is_cont b2 && is_cont b3
            then cons ((Byte.to_N b0 - 240) * 262144 + cont b1 * 4096
                       + cont b2 * 64 + cont b3)%N
                   <$> utf8_decode r3
            else None
          else None
        end
      end
    end
  end.

(** Universal newlines of text mode: ["\r\n"] and a lone ["\r"] are read
    as ["\n"]. *)
Fixpoint universal_newlines (s : str) : str :=
  match s with
  | [] => []
  | c :: s' =>
    if N.eqb c CR then
      LF :: match s' with
            | c' :: s'' =>
              if N.eqb c' LF then universal_newlines s'' else universal_newlines s'
            | [] => []
            end
    else c :: universal_newlines s'
  end.

(** What the UTF-8 codec can encode: every code point but the
    surrogates. *)
Definition encodable_char (cp : N) : bool :=
  (cp <? 55296)%N || ((57343 <? cp)%N && (cp <=? 1114111)%N).

Definition encodable (s : str) : bool := forallb encodable_char s.

Definition hex_digit (n : N) : N := if (n <? 10)%N then (48 + n)%N else (87 + n)%N.

Fixpoint hex (digits : nat) (n : N) : str :=
  match digits with
  | O => []
  | S d => hex d (n / 16)%N ++ [hex_digit (n mod 16)%N]
  end.

(** The [backslashreplace] error handler of standard error: a code point
    that cannot be encoded is written as its escape. *)
Fixpoint backslashreplace (s : str) : str :=
  match s with
  | [] => []
  | cp :: s' =>
    (if encodable_char cp then [cp]
     else if (cp <? 65536)%N then py "\u" ++ hex 4 cp
     else py "\U" ++ hex 8 cp) ++ backslashreplace s'
  end.

(** ** Paths *)

Definition Path : Type := list str.

(** [p / name]. *)
Definition truediv (p : Path) (name : str) : Path := p ++ [name].
Infix "//" := truediv (at level 40, left associativity).

(** [sep.join(parts)]. *)
Fixpoint join (sep : str) (parts : list str) : str :=
  match parts with
  | [] => []
  | x :: rest =>
    match rest with
    | [] => x
    | _ :: _ => x ++ sep ++ join sep rest
    end
  end.

(** [str(p)] of an absolute path. *)
Definition Path_str (p : Path) : str := py "/" ++ join (py "/") p.

(** [p.relative_to(base)]; raises [ValueError] when [base] is not a prefix
    of [p]. *)
Fixpoint relative_to (p base : Path) {struct base} : outcome Path :=
  match base with
  | [] => Returned p
  | b :: base' =>
    match p with
    | c :: p' => if bool_decide (b = c) then relative_to p' base' else Raised ValueError
    | [] => Raised ValueError
    end
  end.

(** [rel.as_posix()] of a relative path. *)
Definition as_posix (rel : Path) : str :=
  match rel with
  | [] => py "."
  | _ :: _ => join (py "/") rel
  end.

(** The order [sorted] uses on paths: the lists of components are
    compared, each component as a [str]. *)
Definition Path_compare : Path -> Path -> comparison := lex_compare str_compare.

Definition Path_le (p q : Path) : Prop := Path_compare p q <> Gt.

Global Instance Path_le_dec : RelDecision Path_le.
Proof.
  intros p q. unfold Path_le.
  destruct (Path_compare p q); [left|left|right]; congruence.
Defined.

(** [sorted(paths)].  The order is total and antisymmetric on paths, so the
    sorted list does not depend on the sorting algorithm. *)
Definition sorted (paths : list Path) : list Path := merge_sort Path_le paths.

(** ** The directory tree *)

(** A regular file with its read permission and its bytes; a directory
    with its read (list) and search permissions and its entries in the
    order the filesystem enumerates them; a symbolic link whose target is
    missing.  A symbolic link whose target exists is the node of its
    target. *)
#[warnings="-register-all"]
Inductive node : Type :=
| File (readable : bool) (data : list byte)
| Dir (listable searchable : bool) (entries : list (str * node))
| Dangling.

(** The entry called [name] of a directory. *)
Fixpoint lookup_entry (name : str) (entries : list (str * node)) : option node :=
  match entries with
  | [] => None
  | (n, x) :: rest => if bool_decide (n = name) then Some x else lookup_entry name rest
  end.

(** [os.stat(p)]: the node [p] leads to, or the error of the walk: a
    directory on the way that may not be searched, a component that is
    missing or that is not a directory. *)
Fixpoint stat (root : node) (p : Path) : outcome node :=
  match p with
  | [] =>
    match root with
    | Dangling => Raised FileNotFoundError
    | _ => Returned root
    end
  | c :: p' =>
    match root with
    | Dir _ searchable entries =>
      if searchable then
        match lookup_entry c entries with
        | Some x => stat x p'
        | None => Raised FileNotFoundError
        end
      else Raised PermissionError
    | File _ _ => Raised NotADirectoryError
    | Dangling => Raised FileNotFoundError
    end
  end.

(** The names [os.scandir] yields for what [stat] found, in enumeration
    order; [pathlib]'s glob takes a directory that may not be listed, and
    anything that is not a directory, as empty. *)
Definition scandir (x : outcome node) : list str :=
  match x with
  | Returned (Dir true _ entries) => entries.*1
  | _ => []
  end.

(** What [open] and the decoding give for what [stat] found. *)
Definition read_found (found : outcome node) : outcome str :=
  match found with
  | Returned (File true data) =>
    match utf8_decode data with
    | Some text => Returned (universal_newlines text)
    | None => Raised UnicodeDecodeError
    end
  | Returned (File false _) => Raised PermissionError
  | Returned (Dir _ _ _) => Raised IsADirectoryError
  | Returned Dangling => Raised FileNotFoundError
  | Raised e => Raised e
  end.

(** [p.read_text(encoding="utf-8")]. *)
Definition node_read_text (root : node) (p : Path) : outcome str :=
  read_found (stat root p).

(** ** The world and the monad *)

Inductive fs_op : Type :=
| OpExists (p : Path)
| OpScandir (p : Path)
| OpReadText (p : Path).

Record world : Type := World {
  fs : node;
  stdout : str;
  stderr : str;
  syscalls : list fs_op
}.

Definition M (A : Type) : Type := world -> outcome A * world.

Definition ret {A} (a : A) : M A := fun w => (Returned a, w).

Definition bind {A B} (m : M A) (k : A -> M B) : M B :=
  fun w =>
    match m w with
    | (Returned a, w') => k a w'
    | (Raised e, w') => (Raised e, w')
    end.

Notation "x <- m ;; k" := (bind m (fun x => k))
  (at level 100, m at next level, right associativity).
Notation "m ;; k" := (bind m (fun _ => k))
  (at level 100, right associativity).

Definition lift {A} (r : outcome A) : M A := fun w => (r, w).

Definition log (op : fs_op) (w : world) : world :=
  World (fs w) (stdout w) (stderr w) (syscalls w ++ [op]).

(** [_ignore_error]: the errors of [stat] that mean "not there". *)
Definition _ignore_error (e : exn) : bool :=
  match e with
  | FileNotFoundError | NotADirectoryError => true
  | _ => false
  end.

(** [p.exists()]: [stat] decides; an error that means "not there" gives
    [False], any other error of [stat] is raised again. *)
Definition Path_exists (p : Path) : M bool :=
  fun w =>
    (match stat (fs w) p with
     | Returned _ => Returned true
     | Raised e => if _ignore_error e then Returned false else Raised e
     end,
     log (OpExists p) w).

(** [p.glob("*" + suffix)], consumed to the end.  [select_from] asks
    [is_dir], which treats the errors of [stat] as [exists] does; then the
    children whose name ends with [suffix] are yielded in enumeration
    order, files, directories and links alike, hidden ones included.  A
    directory that may not be listed yields nothing. *)
Definition Path_glob (p : Path) (suffix : str) : M (list Path) :=
  fun w =>
    (match stat (fs w) p with
     | Returned d =>
       Returned (truediv p <$>
                   filter (fun name => endswith name suffix = true)
                     (scandir (Returned d)))
     | Raised e => if _ignore_error e then Returned [] else Raised e
     end,
     log (OpScandir p) w).

(** [p.read_text(encoding="utf-8")]. *)
Definition Path_read_text (p : Path) : M str :=
  fun w => (node_read_text (fs w) p, log (OpReadText p) w).

(** [print(s)]: the line is encoded before anything is written, so a
    [str] that cannot be encoded raises and writes nothing. *)
Definition print (s : str) : M unit :=
  fun w =>
    if encodable s
    then (Returned tt, World (fs w) (stdout w ++ s ++ [LF]) (stderr w) (syscalls w))
    else (Raised UnicodeEncodeError, w).

(** [print(s, file=sys.stderr)]. *)
Definition print_stderr (s : str) : M unit :=
  fun w =>
    (Returned tt,
     World (fs w) (stdout w) (stderr w ++ backslashreplace s ++ [LF]) (syscalls w)).

(** ** The script *)

Definition ALLOWLIST : gset str :=
  list_to_set [
    py "backend/migrations/1 - init.sql";
    py "backend/migrations/2025_05_09_create_early_access.sql";
    py "backend/migrations/2025_05_11_create_signup.sql";
    py "backend/migrations/2025_05_15_add_user_roles_columns_types.sql";
    py "backend/migrations/2025_05_23_add_oauth_type_to_users.sql";
    py "backend/migrations/2025_10_04_1_create_workflow.sql";
    py "backend/migrations/2025_10_04_2_create_updated_at_trigger.sql";
    py "backend/migrations/2025_10_07_1_create_workflow_logs.sql";
    py "backend/migrations/2025_10_07_2_unique_workflow_name.sql";
    py "backend/migrations/2025_10_07_3_create_workflow_runs.sql";
    py "backend/migrations/2025_10_07_4_create_workflow_node_runs.sql";
    py "backend/migrations/2025_10_07_5_add_webhook_salt.sql";
    py "backend/migrations/2025_10_08_1_alter_workflows_add_concurrency.sql";
    py "backend/migrations/2025_5_12_add_is_verified.sql";
    py "backend/migrations/2025_5_12_create_email_verification_tokens.sql";
    py "backend/migrations/2025_5_13_add_used_at_email_verification_tokens.sql";
    py "backend/migrations/2025_5_16_add_reset_password_token_fields.sql";
    py "backend/migrations/2025_9_15_add_used_at_password_reset.sql";
    py "backend/migrations/2025_9_16_add_oauth_enum_email.sql"
  ].

(** Proofs reason about membership in the table through [decide]; only
    concrete runs unfold it. *)
Global Opaque ALLOWLIST.

Section Script.

(** [Path(__file__).resolve().parents[1]]: the absolute path of the
    checkout the script lives in. *)
Variable REPO_ROOT : Path.

Definition MIGRATIONS_DIR : Path := REPO_ROOT // py "backend" // py "migrations".

(** The body of the [for] loop of [main]; [continue] returns the failure
    list as it is. *)
Definition loop_body (path : Path) (failures : list str) : M (list str) :=
  rel <- lift (relative_to path REPO_ROOT) ;;
  let rel_path := as_posix rel in
  if decide (rel_path ∈ ALLOWLIST) then ret failures
  else
    text <- Path_read_text path ;;
    if negb (str_in (py "-- Rollback:") text) then ret (failures ++ [rel_path])
    else ret failures.

(** [for path in paths: ...] *)
Fixpoint for_paths (paths : list Path) (failures : list str) : M (list str) :=
  match paths with
  | [] => ret failures
  | path :: rest =>
    failures' <- loop_body path failures ;;
    for_paths rest failures'
  end.

(** Lines 41 to 46 of [main]: the sorted scan that fills [failures]. *)
Definition scan (failures : list str) : M (list str) :=
  paths <- Path_glob MIGRATIONS_DIR (py ".sql") ;;
  for_paths (sorted paths) failures.

(** [for failure in failures: print(f"  - {failure}")] *)
Fixpoint print_failures (failures : list str) : M unit :=
  match failures with
  | [] => ret tt
  | failure :: rest =>
    print (py "  - " ++ failure) ;;
    print_failures rest
  end.

Definition main : M Z :=
  let failures : list str := [] in
  present <- Path_exists MIGRATIONS_DIR ;;
  if negb present then
    print_stderr (py "Missing migrations directory: " ++ Path_str MIGRATIONS_DIR) ;;
    ret 1%Z
  else
    failures <- scan failures ;;
    match failures with
    | _ :: _ =>
      print (py "The following migrations are missing a '-- Rollback:' guidance block:") ;;
      print_failures failures ;;
      print_stderr
        (py "Add rollback notes or update the allowlist once legacy files are documented.") ;;
      ret 1%Z
    | [] => ret 0%Z
    end.

End Script.

(** The entry point, [sys.exit(main())], seen from the calling process:
    [sys.exit] ends the process with the integer [main] returned, and when
    an exception leaves [main] the interpreter reports it and ends the
    process with status 1.  Only the status is modelled, not the text of
    the report. *)
Definition sys_exit (r : outcome Z) : Z :=
  match r with
  | Returned code => code
  | Raised _ => 1%Z
  end.

Definition entry_point (REPO_ROOT : Path) (w : world) : Z :=
  sys_exit (main REPO_ROOT w).1.

(** ** Runs on concrete trees *)

(** A directory that may be listed and searched. *)
Definition folder (entries : list (str * node)) : node := Dir true true entries.

(** A tree holding [repo/backend/migrations] with the given entries. *)
Definition checkout (entries : list (str * node)) : node :=
  folder [(py "repo", folder [(py "backend", folder [(py "migrations", folder entries)])])].

Definition text_file (s : string) : node := File true (String.list_byte_of_string s).

Definition boot (root : node) : world := World root [] [] [].

Definition repo : Path := [py "repo"].

Definition demo_a : world :=
  boot (checkout [(py "new_feature.sql", text_file "-- Rollback: drop table x;");
                  (py "1 - init.sql", text_file "CREATE TABLE users (id int);")]).
Definition demo_b : world :=
  boot (checkout [(py "bad_migration.sql", text_file "CREATE TABLE t (id int);")]).
Definition demo_c : world :=
  boot (checkout [(py "z_last.sql", text_file "select 1;");
                  (py "readme.md", text_file "no marker");
                  (py "a_first.sql", text_file "-- rollback: lower case");
                  (py "m_ok.sql", text_file "x -- Rollback: y")]).

(** One entry lacks the marker, another one is not valid UTF-8. *)
Definition clash : world :=
  boot (checkout [(py "b_broken.sql", File true [xff]);
                  (py "a_plain.sql", text_file "CREATE TABLE t (id int);")]).

(** The tree of [demo_a] enumerated the other way round, in a world where
    both streams and the access log already hold something. *)
Definition demo_a_again : world :=
  World (checkout [(py "1 - init.sql", text_file "CREATE TABLE users (id int);");
                   (py "new_feature.sql", text_file "-- Rollback: drop table x;")])
        (py "earlier output") (py "earlier diagnostics") [OpExists [py "tmp"]].

(** An exempt entry that is not text at all, a subdirectory holding an
    undocumented migration, and a documented migration. *)
Definition demo_nested : world :=
  boot (checkout [(py "1 - init.sql", File true [xff; x00; xfe]);
                  (py "archive", folder [(py "old.sql", text_file "drop table t;")]);
                  (py "ok.sql", text_file "-- Rollback: none needed")]).

(** The names of [demo_nested] with other contents for the exempt entry
    and for the subdirectory, after something was already printed. *)
Definition demo_nested_other : world :=
  World (checkout [(py "1 - init.sql", text_file "-- Rollback: drop table users;");
                   (py "archive", folder []);
                   (py "ok.sql", text_file "-- Rollback: none needed")])
        (py "earlier output") [] [].

(** The directory of [demo_c] in a checkout that lives elsewhere. *)
Definition demo_c_moved : world :=
  boot (folder [(py "srv", folder [(py "ci", folder [(py "backend", folder
    [(py "migrations", folder
      [(py "z_last.sql", text_file "select 1;");
       (py "readme.md", text_file "no marker");
       (py "a_first.sql", text_file "-- rollback: lower case");
       (py "m_ok.sql", text_file "x -- Rollback: y")])])])])]).

(** A regular file where the migrations directory is expected. *)
Definition demo_file_at_path : world :=
  boot (folder [(py "repo", folder [(py "backend",
    folder [(py "migrations", text_file "not a directory")])])]).


(** No migrations directory, below a directory that may not be searched. *)
Definition demo_denied : world :=
  boot (folder [(py "repo", folder [(py "backend", Dir true false [])])]).

(** A migrations directory that may not be listed, holding an
    undocumented migration. *)
Definition demo_unlistable : world :=
  boot (folder [(py "repo", folder [(py "backend", folder
    [(py "migrations", Dir false true [(py "bad.sql", text_file "drop table t;")])])])]).

(** Three entries that cannot be read, after one that can: a file without
    read permission, a file that is not UTF-8 and a directory that the glob
    matches. *)
Definition demo_abort_order : world :=
  boot (checkout [(py "d_dir.sql", folder []);
                  (py "c_binary.sql", File true [xff]);
                  (py "b_locked.sql", File false []);
                  (py "a_ok.sql", text_file "-- Rollback: drop index i;")]).

(** A dangling symbolic link that the glob matches. *)
Definition demo_dangling : world :=
  boot (checkout [(py "gone.sql", Dangling)]).

(** Two undocumented migrations; the name of the first one is not valid
    UTF-8: its byte 0x80 reaches the program as U+DC80. *)
Definition demo_unprintable : world :=
  boot (checkout [(py "b_" ++ [56448%N] ++ py ".sql", text_file "drop table t;");
                  (py "c_plain.sql", text_file "drop table u;")]).

(** A documented migration, and an undocumented one whose name holds a
    line feed after the name of the documented one. *)
Definition demo_linefeed : world :=
  boot (checkout [(py "m_ok.sql", text_file "-- Rollback: fine");
                  (py "m_ok.sql" ++ [LF] ++ py "x.sql", text_file "drop table t;")]).

(** Three undocumented migrations called [z], U+00E9 and the byte 0x80. *)
Definition demo_code_points : world :=
  boot (checkout [([56448%N] ++ py ".sql", text_file "a");
                  ([233%N] ++ py ".sql", text_file "b");
                  (py "z.sql", text_file "c")]).

(** A documented migration called [z], and two entries that cannot be
    read: U+00E9 without read permission, and the byte 0x80 holding bytes
    that are not UTF-8. *)
Definition demo_code_point_abort : world :=
  boot (checkout [([56448%N] ++ py ".sql", File true [xff]);
                  ([233%N] ++ py ".sql", File false []);
                  (py "z.sql", text_file "-- Rollback: none")]).

(** ** Vocabulary of the properties

    The properties are stated with the notions below, which are written
    independently of the functions the script runs. *)

(** Lexicographic order on [str], by code point. *)
Inductive str_le : str -> str -> Prop :=
| str_le_nil (b : str) : str_le [] b
| str_le_lt (x y : N) (a b : str) : (x < y)%N -> str_le (x :: a) (y :: b)
| str_le_eq (x : N) (a b : str) : str_le a b -> str_le (x :: a) (x :: b).

(** [needle] occurs in [hay]: some text before it, some text after it. *)
Definition occurs_in (needle hay : str) : Prop :=
  exists pre post, hay = pre ++ needle ++ post.

(** The forward-slash path, relative to the checkout, of the entry [name]
    of the migrations directory. *)
Definition rel_path_of (name : str) : str := py "backend/migrations/" ++ name.

Definition exempt (name : str) : Prop := rel_path_of name ∈ ALLOWLIST.

(** Every code point of [s] has a UTF-8 encoding: none is a surrogate. *)
Definition printable (s : str) : Prop :=
  Forall (fun cp => (cp < 55296 \/ 57343 < cp <= 1114111)%N) s.

(** The text that holds the given lines, each ended by a line feed. *)
Definition unlines (ls : list str) : str := concat ((fun l => l ++ [LF]) <$> ls).

(** The lines of a text: the pieces between its line feeds. *)
Fixpoint split_lines (current s : str) : list str :=
  match s with
  | [] =>
    match current with
    | [] => []
    | _ :: _ => [current]
    end
  | c :: s' =>
    if bool_decide (c = LF) then current :: split_lines [] s'
    else split_lines (current ++ [c]) s'
  end.

Definition lines_of (s : str) : list str := split_lines [] s.

(** One print wrote [line] into [text], at the start of a line. *)
Definition printed_line (text line : str) : Prop :=
  exists before after, text = unlines before ++ line ++ [LF] ++ unlines after.

(** The lines of the report of a failure list. *)
Definition report (failures : list str) : list str :=
  py "The following migrations are missing a '-- Rollback:' guidance block:"
    :: (app (py "  - ") <$> failures).

Section Vocabulary.

Variable REPO_ROOT : Path.

(** What [stat] finds at the migrations path. *)
Definition migrations (w : world) : outcome node :=
  stat (fs w) (MIGRATIONS_DIR REPO_ROOT).

(** Something is at the migrations path: a directory, or a file. *)
Definition present (w : world) : Prop := exists d, migrations w = Returned d.

(** Nothing is at the migrations path: a component is missing, is a
    dangling link or is not a directory. *)
Definition absent (w : world) : Prop :=
  migrations w = Raised FileNotFoundError \/ migrations w = Raised NotADirectoryError.

(** [name] is an entry directly under the migrations directory, as a scan
    lists them, and it matches [*.sql]. *)
Definition candidate (w : world) (name : str) : Prop :=
  name ∈ scandir (migrations w) /\ exists stem, name = stem ++ py ".sql".

(** What reading the entry [name] of the migrations directory gives. *)
Definition text_of (w : world) (name : str) : outcome str :=
  node_read_text (fs w) (MIGRATIONS_DIR REPO_ROOT // name).

(** The entry has a text and that text holds the marker. *)
Definition documented (w : world) (name : str) : Prop :=
  exists text, text_of w name = Returned text /\ occurs_in (py "-- Rollback:") text.

(** The entry has a text and that text lacks the marker. *)
Definition undocumented (w : world) (name : str) : Prop :=
  exists text, text_of w name = Returned text /\ ~ occurs_in (py "-- Rollback:") text.

Definition readable_entry (w : world) (name : str) : Prop :=
  exists text, text_of w name = Returned text.

(** Two worlds hold the same migrations directory: [stat] finds the same
    there, or it finds directories with the same permissions and the same
    entries enumerated in another order. *)
Definition same_directory (w1 w2 : world) : Prop :=
  migrations w1 = migrations w2 \/
  exists l s es1 es2,
    migrations w1 = Returned (Dir l s es1) /\ migrations w2 = Returned (Dir l s es2) /\
    NoDup es1.*1 /\ es1 ≡ₚ es2.

End Vocabulary.

(** ** What a run does, as functions of the tree

    The loop of [main] reads the tree and never changes it, so its result
    and its accesses are functions of the tree alone.  They are stated
    here and proved equal to the monadic code below. *)

Definition cmp_le (a b : str) : Prop := str_compare a b <> Gt.

Global Instance cmp_le_dec : RelDecision cmp_le.
Proof.
  intros a b. unfold cmp_le.
  destruct (str_compare a b); [left|left|right]; congruence.
Defined.

Inductive verdict : Type :=
| Skipped
| Passed
| Failed
| Aborted (e : exn).

Global Instance exn_eq_dec : EqDecision exn.
Proof. solve_decision. Defined.

Global Instance verdict_eq_dec : EqDecision verdict.
Proof. solve_decision. Defined.

Global Instance outcome_eq_dec {A} `{EqDecision A} : EqDecision (outcome A).
Proof. solve_decision. Defined.

Section Denotation.

Variable REPO_ROOT : Path.
Variable root : node.

Definition entry_text (name : str) : outcome str :=
  node_read_text root (MIGRATIONS_DIR REPO_ROOT // name).

Definition verdict_of (name : str) : verdict :=
  if decide (exempt name) then Skipped
  else match entry_text name with
       | Returned text => if str_in (py "-- Rollback:") text then Passed else Failed
       | Raised e => Aborted e
       end.

Fixpoint run_result (names : list str) (failures : list str) : outcome (list str) :=
  match names with
  | [] => Returned failures
  | name :: rest =>
    match verdict_of name with
    | Skipped | Passed => run_result rest failures
    | Failed => run_result rest (failures ++ [rel_path_of name])
    | Aborted e => Raised e
    end
  end.

Fixpoint run_reads (names : list str) : list fs_op :=
  match names with
  | [] => []
  | name :: rest =>
    match verdict_of name with
    | Skipped => run_reads rest
    | Passed | Failed => OpReadText (MIGRATIONS_DIR REPO_ROOT // name) :: run_reads rest
    | Aborted _ => [OpReadText (MIGRATIONS_DIR REPO_ROOT // name)]
    end
  end.

(** No entry of [names] makes the loop raise. *)
Definition no_abort (names : list str) : Prop :=
  forall name, name ∈ names -> forall e, verdict_of name <> Aborted e.

(** The names matched by the glob, in the order the loop visits them. *)
Definition visited : list str :=
  merge_sort cmp_le
    (filter (fun name => endswith name (py ".sql") = true)
       (scandir (stat root (MIGRATIONS_DIR REPO_ROOT)))).

End Denotation.

(** What the printing loop writes for a failure list, and how it ends: it
    stops at the first line that cannot be encoded. *)
Fixpoint printed (failures : list str) : outcome unit * str :=
  match failures with
  | [] => (Returned tt, [])
  | failure :: rest =>
    if encodable (py "  - " ++ failure)
    then ((printed rest).1, (py "  - " ++ failure) ++ [LF] ++ (printed rest).2)
    else (Raised UnicodeEncodeError, [])
  end.

(** Result, text written on standard output, text written on standard
    error and filesystem accesses of one run. *)
Definition run_of_tree (REPO_ROOT : Path) (root : node)
    : outcome Z * str * str * list fs_op :=
  let dir := MIGRATIONS_DIR REPO_ROOT in
  match stat root dir with
  | Returned _ =>
    let names := visited REPO_ROOT root in
    let ops := [OpExists dir; OpScandir dir] ++ run_reads REPO_ROOT root names in
    match run_result REPO_ROOT root names [] with
    | Raised e => (Raised e, [], [], ops)
    | Returned [] => (Returned 0%Z, [], [], ops)
    | Returned failures =>
      let header :=
        py "The following migrations are missing a '-- Rollback:' guidance block:"
          ++ [LF] in
      match (printed failures).1 with
      | Returned _ =>
        (Returned 1%Z, header ++ (printed failures).2,
         py "Add rollback notes or update the allowlist once legacy files are documented."
           ++ [LF],
         ops)
      | Raised e => (Raised e, header ++ (printed failures).2, [], ops)
      end
    end
  | Raised e =>
    if _ignore_error e then
      (Returned 1%Z, [],
       backslashreplace (py "Missing migrations directory: " ++ Path_str dir) ++ [LF],
       [OpExists dir])
    else (Raised e, [], [], [OpExists dir])
  end.

(** What [stat] finds one component below what it found at a path. *)
Definition stat_child (found : outcome node) (name : str) : outcome node :=
  match found with
  | Returned (Dir _ searchable entries) =>
    if searchable then
      match lookup_entry name entries with
      | Some Dangling | None => Raised FileNotFoundError
      | Some x => Returned x
      end
    else Raised PermissionError
  | Returned (File _ _) => Raised NotADirectoryError
  | Returned Dangling => Raised FileNotFoundError
  | Raised e => Raised e
  end.

(** ** Comparisons *)

Section LexCompare.

Context {A : Type} (cmp : A -> A -> comparison).
Hypothesis cmp_refl : forall x, cmp x x = Eq.
Hypothesis cmp_eq : forall x y, cmp x y = Eq -> x = y.
Hypothesis cmp_antisym : forall x y, cmp x y = CompOpp (cmp y x).
Hypothesis cmp_lt_trans : forall x y z, cmp x y = Lt -> cmp y z = Lt -> cmp x z = Lt.

Lemma lex_compare_refl (a : list A) : lex_compare cmp a a = Eq.
Proof. induction a as [|x a IH]; simpl; [|rewrite cmp_refl]; auto. Qed.

Lemma lex_compare_eq (a b : list A) : lex_compare cmp a b = Eq -> a = b.
Proof.
  revert b. induction a as [|x a IH]; intros [|y b]; simpl; try congruence.
  destruct (cmp x y) eqn:E; try congruence.
  apply cmp_eq in E. intros H. apply IH in H. congruence.
Qed.

Lemma lex_compare_antisym (a b : list A) :
  lex_compare cmp a b = CompOpp (lex_compare cmp b a).
Proof.
  revert b. induction a as [|x a IH]; intros [|y b]; simpl; try reflexivity.
  rewrite (cmp_antisym x y). destruct (cmp y x); simpl; auto.
Qed.

Lemma lex_compare_lt_trans (a b c : list A) :
  lex_compare cmp a b = Lt -> lex_compare cmp b c = Lt -> lex_compare cmp a c = Lt.
Proof.
  revert b c. induction a as [|x a IH]; intros [|y b] [|z c]; simpl; try congruence.
  destruct (cmp x y) eqn:Hxy; try congruence;
    destruct (cmp y z) eqn:Hyz; try congruence; intros H1 H2.
  - apply cmp_eq in Hxy, Hyz. subst. rewrite cmp_refl. eauto.
  - apply cmp_eq in Hxy. subst. rewrite Hyz. reflexivity.
  - apply cmp_eq in Hyz. subst. rewrite Hxy. reflexivity.
  - rewrite (cmp_lt_trans _ _ _ Hxy Hyz). reflexivity.
Qed.

Lemma lex_compare_app (pre a b : list A) :
  lex_compare cmp (pre ++ a) (pre ++ b) = lex_compare cmp a b.
Proof.
  induction pre as [|x pre IH]; simpl; [reflexivity|].
  rewrite cmp_refl. exact IH.
Qed.

Lemma lex_le_total (a b : list A) :
  lex_compare cmp a b <> Gt \/ lex_compare cmp b a <> Gt.
Proof.
  rewrite (lex_compare_antisym b a).
  destruct (lex_compare cmp a b); simpl; [left|left|right]; congruence.
Qed.

Lemma lex_le_trans (a b c : list A) :
  lex_compare cmp a b <> Gt -> lex_compare cmp b c <> Gt -> lex_compare cmp a c <> Gt.
Proof.
  intros Hab Hbc Hac.
  assert (Hca : lex_compare cmp c a = Lt).
  { rewrite lex_compare_antisym, Hac. reflexivity. }
  destruct (lex_compare cmp a b) eqn:E1; [| |congruence].
  - apply lex_compare_eq in E1. subst.
    rewrite lex_compare_antisym, Hca in Hbc. simpl in Hbc. congruence.
  - destruct (lex_compare cmp b c) eqn:E2; [| |congruence].
    + apply lex_compare_eq in E2. subst. congruence.
    + pose proof (lex_compare_lt_trans _ _ _ E2 Hca) as H.
      rewrite lex_compare_antisym, H in E1. discriminate E1.
Qed.

Lemma lex_le_antisym (a b : list A) :
  lex_compare cmp a b <> Gt -> lex_compare cmp b a <> Gt -> a = b.
Proof.
  rewrite (lex_compare_antisym b a).
  destruct (lex_compare cmp a b) eqn:E; simpl; try congruence.
  intros _ _. apply lex_compare_eq. exact E.
Qed.

End LexCompare.

Lemma N_compare_lt_trans (x y z : N) :
  (x ?= y)%N = Lt -> (y ?= z)%N = Lt -> (x ?= z)%N = Lt.
Proof. rewrite !N.compare_lt_iff. apply N.lt_trans. Qed.

Lemma N_compare_eq (x y : N) : (x ?= y)%N = Eq -> x = y.
Proof. apply N.compare_eq_iff. Qed.

Lemma N_compare_antisym (x y : N) : (x ?= y)%N = CompOpp (y ?= x)%N.
Proof. apply N.compare_antisym. Qed.

Lemma str_compare_refl (s : str) : str_compare s s = Eq.
Proof. apply lex_compare_refl. apply N.compare_refl. Qed.

Lemma str_compare_eq (a b : str) : str_compare a b = Eq -> a = b.
Proof. apply lex_compare_eq. apply N_compare_eq. Qed.

Lemma str_compare_antisym (a b : str) : str_compare a b = CompOpp (str_compare b a).
Proof. apply lex_compare_antisym. apply N_compare_antisym. Qed.

Lemma str_compare_lt_trans (a b c : str) :
  str_compare a b = Lt -> str_compare b c = Lt -> str_compare a c = Lt.
Proof.
  apply lex_compare_lt_trans.
  - apply N.compare_refl.
  - apply N_compare_eq.
  - apply N_compare_lt_trans.
Qed.

Lemma str_compare_app (pre a b : str) :
  str_compare (pre ++ a) (pre ++ b) = str_compare a b.
Proof. apply lex_compare_app. apply N.compare_refl. Qed.

(** The inductive order is the one the comparison computes. *)
Lemma str_le_compare (a b : str) : str_le a b <-> str_compare a b <> Gt.
Proof.
  split.
  - induction 1 as [b|x y a b Hlt|x a b Hle IH]; unfold str_compare in *; simpl.
    + destruct b; congruence.
    + apply N.compare_lt_iff in Hlt. rewrite Hlt. congruence.
    + rewrite N.compare_refl. exact IH.
  - revert b. induction a as [|x a IH]; intros b H; [constructor|].
    destruct b as [|y b]; unfold str_compare in *; simpl in H; [congruence|].
    destruct (x ?= y)%N eqn:E.
    + apply N.compare_eq_iff in E. subst. apply str_le_eq. apply IH. exact H.
    + apply N.compare_lt_iff in E. apply str_le_lt. exact E.
    + congruence.
Qed.

Global Instance str_le_dec : RelDecision str_le.
Proof.
  intros a b. destruct (decide (cmp_le a b)) as [H|H].
  - left. apply str_le_compare. exact H.
  - right. intros Hle. apply H. apply str_le_compare. exact Hle.
Defined.

Global Instance cmp_le_total : Total cmp_le.
Proof. intros a b. apply lex_le_total. apply N_compare_antisym. Qed.

Global Instance cmp_le_trans : Transitive cmp_le.
Proof.
  intros a b c. apply lex_le_trans.
  - apply N.compare_refl.
  - apply N_compare_eq.
  - apply N_compare_antisym.
  - apply N_compare_lt_trans.
Qed.

Global Instance cmp_le_antisym : AntiSymm (=) cmp_le.
Proof.
  intros a b. apply lex_le_antisym.
  - apply N_compare_eq.
  - apply N_compare_antisym.
Qed.

Global Instance str_le_trans : Transitive str_le.
Proof. intros a b c. rewrite !str_le_compare. apply cmp_le_trans. Qed.

Global Instance str_le_antisym : AntiSymm (=) str_le.
Proof. intros a b. rewrite !str_le_compare. apply cmp_le_antisym. Qed.

Global Instance str_le_total : Total str_le.
Proof. intros a b. rewrite !str_le_compare. apply cmp_le_total. Qed.

Lemma str_le_refl (s : str) : str_le s s.
Proof. apply str_le_compare. rewrite str_compare_refl. congruence. Qed.

Lemma str_le_app (pre a b : str) : str_le (pre ++ a) (pre ++ b) <-> str_le a b.
Proof. rewrite !str_le_compare, str_compare_app. reflexivity. Qed.

Lemma Path_compare_child (dir : Path) (a b : str) :
  Path_compare (dir // a) (dir // b) = str_compare a b.
Proof.
  unfold truediv, Path_compare. rewrite lex_compare_app by apply str_compare_refl.
  simpl. destruct (str_compare a b); reflexivity.
Qed.

Lemma Path_le_child (dir : Path) (a b : str) :
  Path_le (dir // a) (dir // b) <-> cmp_le a b.
Proof. unfold Path_le, cmp_le. rewrite Path_compare_child. reflexivity. Qed.

Global Instance Path_le_total : Total Path_le.
Proof. intros p q. apply lex_le_total. apply str_compare_antisym. Qed.

Global Instance Path_le_trans : Transitive Path_le.
Proof.
  intros p q r. apply lex_le_trans.
  - apply str_compare_refl.
  - apply str_compare_eq.
  - apply str_compare_antisym.
  - apply str_compare_lt_trans.
Qed.

Global Instance Path_le_antisym : AntiSymm (=) Path_le.
Proof.
  intros p q. apply lex_le_antisym.
  - apply str_compare_eq.
  - apply str_compare_antisym.
Qed.

Lemma StronglySorted_impl {A} (R1 R2 : relation A) (l : list A) :
  (forall x y, R1 x y -> R2 x y) -> StronglySorted R1 l -> StronglySorted R2 l.
Proof.
  intros H. induction 1 as [|a l Hs IH Hall]; constructor; [exact IH|].
  eapply Forall_impl; [exact Hall|]. intros b. apply H.
Qed.

Lemma StronglySorted_filter {A} (Rel : relation A) (P : A -> Prop)
    `{forall x, Decision (P x)} (l : list A) :
  StronglySorted Rel l -> StronglySorted Rel (filter P l).
Proof.
  induction 1 as [|a l Hs IH Hall]; [constructor|].
  rewrite filter_cons. destruct (decide (P a)); [|exact IH].
  constructor; [exact IH|].
  rewrite Forall_forall in *. intros b Hb. apply list_elem_of_filter in Hb.
  apply Hall. apply Hb.
Qed.

(** [sorted] on the children of one directory sorts their names. *)
Lemma sorted_truediv (dir : Path) (names : list str) :
  sorted (truediv dir <$> names) = truediv dir <$> merge_sort cmp_le names.
Proof.
  apply (StronglySorted_unique Path_le).
  - apply StronglySorted_merge_sort; apply _.
  - eapply StronglySorted_fmap; [|apply StronglySorted_merge_sort; apply _].
    intros a b. apply Path_le_child.
  - unfold sorted. rewrite !merge_sort_Permutation. reflexivity.
Qed.

Lemma merge_sort_perm (l1 l2 : list str) :
  l1 ≡ₚ l2 -> merge_sort cmp_le l1 = merge_sort cmp_le l2.
Proof.
  intros Hp. apply (StronglySorted_unique cmp_le).
  - apply StronglySorted_merge_sort; apply _.
  - apply StronglySorted_merge_sort; apply _.
  - rewrite !merge_sort_Permutation. exact Hp.
Qed.

(** ** Text *)

Lemma startswith_prefix (s prefix : str) :
  startswith s prefix = true <-> exists post, s = prefix ++ post.
Proof.
  revert s. induction prefix as [|p prefix IH]; intros s; simpl.
  - split; eauto.
  - destruct s as [|c s].
    + split; [congruence | intros [post H]; discriminate H].
    + rewrite andb_true_iff, N.eqb_eq, IH. split.
      * intros [-> [post ->]]. eauto.
      * intros [post H]. injection H as -> ->. eauto.
Qed.

Lemma str_in_occurs (needle hay : str) :
  str_in needle hay = true <-> occurs_in needle hay.
Proof.
  unfold occurs_in. induction hay as [|c hay IH]; cbn [str_in].
  - rewrite orb_false_r, startswith_prefix. split.
    + intros [post H]. exists [], post. exact H.
    + intros [pre [post H]]. destruct pre; [eauto | discriminate H].
  - rewrite orb_true_iff, startswith_prefix, IH. split.
    + intros [[post H] | [pre [post H]]].
      * exists [], post. exact H.
      * exists (c :: pre), post. simpl. congruence.
    + intros [pre [post H]]. destruct pre as [|d pre]; simpl in H.
      * left. eauto.
      * right. exists pre, post. congruence.
Qed.

Lemma str_in_false (needle hay : str) :
  str_in needle hay = false <-> ~ occurs_in needle hay.
Proof. rewrite <- str_in_occurs. destruct (str_in needle hay); split; congruence. Qed.

Lemma endswith_suffix (s suffix : str) :
  endswith s suffix = true <-> exists stem, s = stem ++ suffix.
Proof.
  induction s as [|c s IH]; cbn [endswith].
  - rewrite orb_false_r, bool_decide_eq_true. split.
    + intros <-. exists []. reflexivity.
    + intros [stem H]. destruct stem; [exact H | discriminate H].
  - rewrite orb_true_iff, bool_decide_eq_true, IH. split.
    + intros [<- | [stem ->]]; [exists [] | exists (c :: stem)]; reflexivity.
    + intros [stem H]. destruct stem as [|d stem]; simpl in H.
      * left. exact H.
      * right. exists stem. congruence.
Qed.

Lemma encodable_char_spec (cp : N) :
  encodable_char cp = true <-> (cp < 55296 \/ 57343 < cp <= 1114111)%N.
Proof.
  unfold encodable_char.
  rewrite orb_true_iff, andb_true_iff, !N.ltb_lt, N.leb_le. reflexivity.
Qed.

Lemma encodable_printable (s : str) : encodable s = true <-> printable s.
Proof.
  unfold encodable, printable. induction s as [|cp s IH]; simpl.
  - split; [constructor | reflexivity].
  - rewrite andb_true_iff, IH, Forall_cons, encodable_char_spec. reflexivity.
Qed.

Lemma encodable_app (a b : str) : encodable (a ++ b) = encodable a && encodable b.
Proof. unfold encodable. apply forallb_app. Qed.


Lemma unlines_cons (l : str) (rest : list str) :
  unlines (l :: rest) = l ++ LF :: unlines rest.
Proof. unfold unlines. rewrite fmap_cons. simpl. rewrite <- app_assoc. reflexivity. Qed.

Lemma split_lines_LF (current s : str) :
  split_lines current (LF :: s) = current :: split_lines [] s.
Proof. reflexivity. Qed.

Lemma split_lines_other (current s : str) (c : N) :
  c <> LF -> split_lines current (c :: s) = split_lines (current ++ [c]) s.
Proof. intros H. cbn [split_lines]. rewrite bool_decide_eq_false_2 by exact H. reflexivity. Qed.

Lemma split_lines_line (current l s : str) :
  LF ∉ l -> split_lines current (l ++ LF :: s) = (current ++ l) :: split_lines [] s.
Proof.
  revert current. induction l as [|c l IH]; intros current Hl.
  - rewrite app_nil_r. apply split_lines_LF.
  - rewrite <- app_comm_cons, split_lines_other.
    + rewrite IH, <- app_assoc; [reflexivity|].
      intros Hin. apply Hl. right. exact Hin.
    + intros ->. apply Hl. left.
Qed.

Lemma split_lines_unlines (ls : list str) :
  Forall (fun l => LF ∉ l) ls -> split_lines [] (unlines ls) = ls.
Proof.
  induction 1 as [|l rest Hl Hrest IH]; [reflexivity|].
  rewrite unlines_cons, split_lines_line by exact Hl. rewrite IH. reflexivity.
Qed.

(** A text made of lines that hold no line feed has exactly those
    lines. *)
Lemma lines_of_unlines (ls : list str) :
  Forall (fun l => LF ∉ l) ls -> lines_of (unlines ls) = ls.
Proof. apply split_lines_unlines. Qed.

(** ** The monadic code computes the functions of the tree *)

Lemma stat_truediv (root : node) (dir : Path) (name : str) :
  stat root (dir // name) = stat_child (stat root dir) name.
Proof.
  unfold truediv. revert root. induction dir as [|c dir IH]; intros root; simpl.
  - destruct root as [r data|l s entries|]; reflexivity.
  - destruct root as [r data|l s entries|]; try reflexivity.
    destruct s; [|reflexivity].
    destruct (lookup_entry c entries) as [x|]; [apply IH | reflexivity].
Qed.

Lemma stat_not_Dangling (root : node) (p : Path) : stat root p <> Returned Dangling.
Proof.
  revert root. induction p as [|c p IH]; intros root; simpl.
  - destruct root; congruence.
  - destruct root as [r data|l s entries|]; try congruence.
    destruct s; [|congruence].
    destruct (lookup_entry c entries); [apply IH | congruence].
Qed.

(** The errors [stat] ends in. *)
Lemma stat_errors (root : node) (p : Path) (e : exn) :
  stat root p = Raised e ->
  e = FileNotFoundError \/ e = NotADirectoryError \/ e = PermissionError.
Proof.
  revert root. induction p as [|c p IH]; intros root; simpl.
  - destruct root; intros [= <-]; auto.
  - destruct root as [r data|l s entries|]; try (intros [= <-]; auto; fail).
    destruct s; [|intros [= <-]; auto].
    destruct (lookup_entry c entries); [apply IH | intros [= <-]; auto].
Qed.

Lemma relative_to_app (base rest : Path) :
  relative_to (base ++ rest) base = Returned rest.
Proof.
  induction base as [|b base IH]; simpl; [reflexivity|].
  rewrite bool_decide_eq_true_2 by reflexivity. exact IH.
Qed.

Lemma MIGRATIONS_DIR_child (R : Path) (name : str) :
  MIGRATIONS_DIR R // name = R ++ [py "backend"; py "migrations"; name].
Proof. unfold MIGRATIONS_DIR, truediv. rewrite <- !app_assoc. reflexivity. Qed.

Lemma as_posix_child (name : str) :
  as_posix [py "backend"; py "migrations"; name] = rel_path_of name.
Proof. reflexivity. Qed.

Lemma header_encodable :
  encodable (py "The following migrations are missing a '-- Rollback:' guidance block:")
  = true.
Proof. vm_compute. reflexivity. Qed.

Lemma advice_plain :
  backslashreplace
    (py "Add rollback notes or update the allowlist once legacy files are documented.")
  = py "Add rollback notes or update the allowlist once legacy files are documented.".
Proof. vm_compute. reflexivity. Qed.

Section Equations.

Variable R : Path.

Lemma loop_body_eq (name : str) (failures : list str) (w : world) :
  loop_body R (MIGRATIONS_DIR R // name) failures w =
  match verdict_of R (fs w) name with
  | Skipped => (Returned failures, w)
  | Passed => (Returned failures, log (OpReadText (MIGRATIONS_DIR R // name)) w)
  | Failed => (Returned (failures ++ [rel_path_of name]),
               log (OpReadText (MIGRATIONS_DIR R // name)) w)
  | Aborted e => (Raised e, log (OpReadText (MIGRATIONS_DIR R // name)) w)
  end.
Proof.
  unfold loop_body, bind, lift, verdict_of, entry_text, exempt.
  rewrite MIGRATIONS_DIR_child, relative_to_app, as_posix_child.
  destruct (decide (rel_path_of name ∈ ALLOWLIST)); [reflexivity|].
  unfold Path_read_text.
  destruct (node_read_text _ _) as [text|e]; [|reflexivity].
  destruct (str_in (py "-- Rollback:") text); reflexivity.
Qed.

Lemma for_paths_eq (names : list str) (failures : list str) (w : world) :
  for_paths R (truediv (MIGRATIONS_DIR R) <$> names) failures w =
  (run_result R (fs w) names failures,
   World (fs w) (stdout w) (stderr w) (syscalls w ++ run_reads R (fs w) names)).
Proof.
  revert failures w. induction names as [|name rest IH]; intros failures w.
  - simpl. unfold ret. rewrite app_nil_r. destruct w; reflexivity.
  - rewrite fmap_cons. cbn [for_paths run_result run_reads]. unfold bind at 1.
    rewrite loop_body_eq.
    destruct (verdict_of R (fs w) name); rewrite ?IH; unfold log; simpl;
      rewrite <- ?app_assoc; reflexivity.
Qed.

(** The scan, when [stat] does not raise an error that [is_dir] raises
    again. *)
Lemma scan_eq (failures : list str) (w : world) :
  (forall e, stat (fs w) (MIGRATIONS_DIR R) = Raised e -> _ignore_error e = true) ->
  scan R failures w =
  (run_result R (fs w) (visited R (fs w)) failures,
   World (fs w) (stdout w) (stderr w)
     (syscalls w ++ OpScandir (MIGRATIONS_DIR R) :: run_reads R (fs w) (visited R (fs w)))).
Proof.
  intros Hok. unfold scan, bind, Path_glob, visited.
  destruct (stat (fs w) (MIGRATIONS_DIR R)) as [d|e] eqn:Hd.
  - rewrite sorted_truediv, for_paths_eq.
    unfold log; simpl. rewrite <- app_assoc. reflexivity.
  - rewrite (Hok e eq_refl). simpl. unfold ret, log; simpl. reflexivity.
Qed.

Lemma scan_raises (failures : list str) (w : world) (e : exn) :
  stat (fs w) (MIGRATIONS_DIR R) = Raised e -> _ignore_error e = false ->
  (scan R failures w).1 = Raised e.
Proof.
  intros Hd He. unfold scan, bind, Path_glob. rewrite Hd, He. reflexivity.
Qed.

(** A scan that returns has the result of the loop over the visited
    names. *)
Lemma scan_Returned (failures result : list str) (w : world) :
  (scan R failures w).1 = Returned result ->
  run_result R (fs w) (visited R (fs w)) failures = Returned result.
Proof.
  intros H. destruct (stat (fs w) (MIGRATIONS_DIR R)) as [d|e] eqn:Hd.
  - rewrite scan_eq in H by (intros e He; congruence). exact H.
  - destruct (_ignore_error e) eqn:He.
    + rewrite scan_eq in H by (intros e' He'; congruence). exact H.
    + rewrite (scan_raises _ _ _ Hd He) in H. discriminate H.
Qed.

Lemma print_failures_eq (failures : list str) (w : world) :
  print_failures failures w =
  ((printed failures).1,
   World (fs w) (stdout w ++ (printed failures).2) (stderr w) (syscalls w)).
Proof.
  revert w. induction failures as [|f rest IH]; intros w.
  - simpl. unfold ret. rewrite app_nil_r. destruct w; reflexivity.
  - cbn [print_failures printed]. unfold bind, print.
    destruct (encodable (py "  - " ++ f)).
    + rewrite IH. cbn [fst snd fs stdout stderr syscalls].
      rewrite <- !app_assoc. reflexivity.
    + cbn [fst snd]. rewrite app_nil_r. destruct w; reflexivity.
Qed.

(** The whole of [main] is [run_of_tree] on the tree it starts in: the
    tree is left as it was, and the streams and the log only grow. *)
Lemma main_eq (w : world) :
  main R w =
  let '(r, out, err, ops) := run_of_tree R (fs w) in
  (r, World (fs w) (stdout w ++ out) (stderr w ++ err) (syscalls w ++ ops)).
Proof.
  unfold main, run_of_tree, bind at 1, Path_exists.
  destruct (stat (fs w) (MIGRATIONS_DIR R)) as [d|e] eqn:Hd.
  - cbn [negb]. unfold bind at 1.
    rewrite scan_eq by (cbn [fs log]; intros e He; congruence).
    unfold log. cbn [fs stdout stderr syscalls].
    destruct (run_result R (fs w) (visited R (fs w)) []) as [[|f fl]|e].
    + unfold ret. rewrite !app_nil_r, <- app_assoc. reflexivity.
    + unfold bind at 1. unfold print at 1. rewrite header_encodable.
      unfold bind at 1. rewrite print_failures_eq.
      cbn [fst snd fs stdout stderr syscalls].
      destruct (printed (f :: fl)).1 as [[]|e].
      * unfold bind, print_stderr, ret. cbn [fs stdout stderr syscalls].
        rewrite advice_plain, <- !app_assoc. reflexivity.
      * rewrite app_nil_r, <- !app_assoc. reflexivity.
    + rewrite !app_nil_r, <- app_assoc. reflexivity.
  - destruct (_ignore_error e).
    + cbn [negb]. unfold bind, print_stderr, ret, log. cbn [fs stdout stderr syscalls].
      rewrite app_nil_r. reflexivity.
    + unfold log. cbn [fs stdout stderr syscalls]. rewrite !app_nil_r. reflexivity.
Qed.

End Equations.

(** ** Verdicts in the vocabulary of the properties *)

Global Instance exempt_dec (name : str) : Decision (exempt name).
Proof. unfold exempt. apply _. Defined.

Global Instance printable_dec (s : str) : Decision (printable s).
Proof. unfold printable. apply _. Defined.

Section Verdicts.

Variable R : Path.
Variable w : world.

Lemma text_of_entry_text (name : str) : text_of R w name = entry_text R (fs w) name.
Proof. reflexivity. Qed.

(** Reading an entry looks at what [stat] found at the migrations path
    and at nothing else. *)
Lemma text_of_found (name : str) :
  text_of R w name = read_found (stat_child (migrations R w) name).
Proof. unfold text_of, node_read_text. rewrite stat_truediv. reflexivity. Qed.

Lemma verdict_Skipped (name : str) :
  verdict_of R (fs w) name = Skipped <-> exempt name.
Proof.
  unfold verdict_of. destruct (decide (exempt name)) as [H|H].
  - split; auto.
  - destruct (entry_text R (fs w) name) as [text|e];
      [destruct (str_in (py "-- Rollback:") text)|];
      (split; [intros Hv; discriminate Hv | intros; contradiction]).
Qed.

Lemma verdict_Passed (name : str) :
  verdict_of R (fs w) name = Passed <-> ~ exempt name /\ documented R w name.
Proof.
  unfold verdict_of, documented. rewrite text_of_entry_text.
  destruct (decide (exempt name)) as [H|H].
  { split; [intros Hv; discriminate Hv | intros [Hn _]; contradiction]. }
  destruct (entry_text R (fs w) name) as [text|e].
  - destruct (str_in (py "-- Rollback:") text) eqn:E.
    + apply str_in_occurs in E. split; [eauto|reflexivity].
    + apply str_in_false in E. split; [intros Hv; discriminate Hv|].
      intros [_ [text' [Heq Hocc]]]. congruence.
  - split; [intros Hv; discriminate Hv|]. intros [_ [text' [Heq _]]]. discriminate Heq.
Qed.

Lemma verdict_Failed (name : str) :
  verdict_of R (fs w) name = Failed <-> ~ exempt name /\ undocumented R w name.
Proof.
  unfold verdict_of, undocumented. rewrite text_of_entry_text.
  destruct (decide (exempt name)) as [H|H].
  { split; [intros Hv; discriminate Hv | intros [Hn _]; contradiction]. }
  destruct (entry_text R (fs w) name) as [text|e].
  - destruct (str_in (py "-- Rollback:") text) eqn:E.
    + apply str_in_occurs in E. split; [intros Hv; discriminate Hv|].
      intros [_ [text' [Heq Hocc]]]. congruence.
    + apply str_in_false in E. split; [eauto|reflexivity].
  - split; [intros Hv; discriminate Hv|]. intros [_ [text' [Heq _]]]. discriminate Heq.
Qed.

Lemma verdict_Aborted (name : str) (e : exn) :
  verdict_of R (fs w) name = Aborted e <-> ~ exempt name /\ text_of R w name = Raised e.
Proof.
  unfold verdict_of. rewrite text_of_entry_text.
  destruct (decide (exempt name)) as [H|H].
  { split; [intros Hv; discriminate Hv | intros [Hn _]; contradiction]. }
  destruct (entry_text R (fs w) name) as [text|e'].
  - destruct (str_in (py "-- Rollback:") text);
      (split; [intros Hv; discriminate Hv | intros [_ Hv]; discriminate Hv]).
  - split; [intros [= ->]; auto | intros [_ [= ->]]; reflexivity].
Qed.

Lemma verdict_readable (name : str) :
  ~ exempt name -> readable_entry R w name ->
  forall e, verdict_of R (fs w) name <> Aborted e.
Proof.
  intros Hne [text Ht] e He. apply verdict_Aborted in He. destruct He as [_ He]. congruence.
Qed.

Lemma elem_of_visited (name : str) :
  name ∈ visited R (fs w) <-> candidate R w name.
Proof.
  unfold visited, candidate, migrations.
  rewrite merge_sort_Permutation, list_elem_of_filter, endswith_suffix.
  split; intros [H1 H2]; split; assumption.
Qed.

Lemma visited_sorted : StronglySorted str_le (visited R (fs w)).
Proof.
  eapply StronglySorted_impl; [|apply StronglySorted_merge_sort; apply _].
  intros a b. apply str_le_compare.
Qed.

Global Instance documented_dec (name : str) : Decision (documented R w name).
Proof.
  unfold documented.
  destruct (text_of R w name) as [text|e] eqn:Ht.
  - destruct (str_in (py "-- Rollback:") text) eqn:E.
    + left. apply str_in_occurs in E. eauto.
    + right. apply str_in_false in E. intros [text' [Heq Hocc]]. congruence.
  - right. intros [text' [Heq _]]. discriminate Heq.
Defined.

Global Instance undocumented_dec (name : str) : Decision (undocumented R w name).
Proof.
  unfold undocumented.
  destruct (text_of R w name) as [text|e] eqn:Ht.
  - destruct (str_in (py "-- Rollback:") text) eqn:E.
    + right. apply str_in_occurs in E. intros [text' [Heq Hocc]].
      assert (text' = text) by congruence. subst. contradiction.
    + left. apply str_in_false in E. eauto.
  - right. intros [text' [Heq _]]. discriminate Heq.
Defined.

Global Instance readable_entry_dec (name : str) : Decision (readable_entry R w name).
Proof.
  unfold readable_entry. destruct (text_of R w name) as [text|e] eqn:Ht.
  - left. eauto.
  - right. intros [text' Heq]. discriminate Heq.
Defined.

Global Instance candidate_dec (name : str) : Decision (candidate R w name).
Proof.
  unfold candidate.
  destruct (decide (name ∈ scandir (migrations R w))) as [Hin|Hin].
  - destruct (endswith name (py ".sql")) eqn:E.
    + left. split; [exact Hin | apply endswith_suffix; exact E].
    + right. intros [_ Hs]. apply endswith_suffix in Hs. congruence.
  - right. intros [Hin' _]. contradiction.
Defined.

Global Instance present_dec : Decision (present R w).
Proof.
  unfold present. destruct (migrations R w) as [d|e].
  - left. eauto.
  - right. intros [d Hd]. discriminate Hd.
Defined.

Global Instance absent_dec : Decision (absent R w).
Proof.
  unfold absent. destruct (migrations R w) as [d|e].
  - right. intros [H|H]; discriminate H.
  - destruct e;
      first [ left; left; reflexivity
            | left; right; reflexivity
            | right; intros [H|H]; discriminate H ].
Defined.

End Verdicts.

(** ** The loop as a function of the tree *)

Section Runs.

Variable R : Path.
Variable root : node.

Lemma no_abort_cons (name : str) (rest : list str) :
  no_abort R root (name :: rest) ->
  (forall e, verdict_of R root name <> Aborted e) /\ no_abort R root rest.
Proof.
  intros H. split.
  - apply H. left.
  - intros n Hn. apply H. right. exact Hn.
Qed.

Lemma run_result_no_abort (names : list str) (failures : list str) :
  no_abort R root names ->
  run_result R root names failures =
  Returned (failures ++ (rel_path_of <$> filter (fun n => verdict_of R root n = Failed) names)).
Proof.
  revert failures. induction names as [|name rest IH]; intros failures Hna.
  - simpl. rewrite app_nil_r. reflexivity.
  - apply no_abort_cons in Hna. destruct Hna as [Hn Hrest].
    cbn [run_result]. rewrite filter_cons.
    destruct (verdict_of R root name) eqn:E.
    + rewrite decide_False by congruence. auto.
    + rewrite decide_False by congruence. auto.
    + rewrite decide_True by reflexivity. rewrite IH by exact Hrest.
      rewrite fmap_cons, <- app_assoc. reflexivity.
    + exfalso. eapply Hn. reflexivity.
Qed.

Lemma run_result_Returned (names : list str) (failures failures' : list str) :
  run_result R root names failures = Returned failures' -> no_abort R root names.
Proof.
  revert failures. induction names as [|name rest IH]; intros failures H.
  - intros n Hn. inversion Hn.
  - cbn [run_result] in H. intros n Hn e He.
    apply elem_of_cons in Hn. destruct Hn as [->|Hn].
    + rewrite He in H. congruence.
    + destruct (verdict_of R root name); try congruence;
        eapply IH; eauto.
Qed.

Lemma run_result_Raised (names : list str) (failures : list str) (e : exn) :
  run_result R root names failures = Raised e ->
  exists name, name ∈ names /\ verdict_of R root name = Aborted e.
Proof.
  revert failures. induction names as [|name rest IH]; intros failures H.
  - simpl in H. congruence.
  - cbn [run_result] in H. destruct (verdict_of R root name) eqn:E.
    + destruct (IH _ H) as [n [Hn Hv]]. exists n. split; [right|]; assumption.
    + destruct (IH _ H) as [n [Hn Hv]]. exists n. split; [right|]; assumption.
    + destruct (IH _ H) as [n [Hn Hv]]. exists n. split; [right|]; assumption.
    + exists name. split; [left|]. congruence.
Qed.

Lemma run_result_abort (names : list str) (failures : list str) (name : str) (e : exn) :
  name ∈ names -> verdict_of R root name = Aborted e ->
  exists e', run_result R root names failures = Raised e'.
Proof.
  intros Hin Hv. destruct (run_result R root names failures) as [fl|e'] eqn:E; [|eauto].
  exfalso. eapply run_result_Returned; eauto.
Qed.

Lemma run_reads_elem (names : list str) (op : fs_op) :
  op ∈ run_reads R root names ->
  exists name, name ∈ names /\ verdict_of R root name <> Skipped /\
               op = OpReadText (MIGRATIONS_DIR R // name).
Proof.
  induction names as [|name rest IH]; cbn [run_reads]; intros H.
  - inversion H.
  - destruct (verdict_of R root name) eqn:E.
    + destruct (IH H) as [n [Hn Hv]]. exists n. split; [right|]; assumption.
    + apply elem_of_cons in H. destruct H as [->|H].
      * exists name. rewrite E. split; [left|]. split; [congruence|reflexivity].
      * destruct (IH H) as [n [Hn Hv]]. exists n. split; [right|]; assumption.
    + apply elem_of_cons in H. destruct H as [->|H].
      * exists name. rewrite E. split; [left|]. split; [congruence|reflexivity].
      * destruct (IH H) as [n [Hn Hv]]. exists n. split; [right|]; assumption.
    + apply list_elem_of_singleton in H. subst.
      exists name. rewrite E. split; [left|]. split; [congruence|reflexivity].
Qed.

Lemma run_reads_no_abort (names : list str) (name : str) :
  no_abort R root names -> name ∈ names -> verdict_of R root name <> Skipped ->
  OpReadText (MIGRATIONS_DIR R // name) ∈ run_reads R root names.
Proof.
  induction names as [|n rest IH]; intros Hna Hin Hv.
  - inversion Hin.
  - apply no_abort_cons in Hna. destruct Hna as [Hn Hrest].
    cbn [run_reads]. apply elem_of_cons in Hin.
    destruct Hin as [->|Hin].
    + destruct (verdict_of R root n) eqn:E; first [left | congruence].
    + destruct (verdict_of R root n) eqn:E;
        first [ exfalso; eapply Hn; reflexivity | right; auto; fail | auto ].
Qed.

Lemma run_reads_complete (names : list str) :
  no_abort R root names ->
  run_reads R root names =
  (fun n => OpReadText (MIGRATIONS_DIR R // n)) <$> filter (fun n => ~ exempt n) names.
Proof.
  induction names as [|name rest IH]; intros Hna; [reflexivity|].
  apply no_abort_cons in Hna. destruct Hna as [Hn Hrest].
  cbn [run_reads]. rewrite filter_cons, IH by exact Hrest.
  unfold verdict_of in *. destruct (decide (exempt name)) as [Hx|Hx].
  - rewrite decide_False by (intros Hnx; contradiction). reflexivity.
  - rewrite decide_True by exact Hx.
    destruct (entry_text R root name) as [text|e].
    + destruct (str_in (py "-- Rollback:") text); reflexivity.
    + exfalso. eapply Hn. reflexivity.
Qed.

Lemma run_all_skipped (names failures : list str) :
  (forall n, n ∈ names -> exempt n) ->
  run_result R root names failures = Returned failures /\ run_reads R root names = [].
Proof.
  induction names as [|name rest IH]; intros H; [auto|].
  cbn [run_result run_reads]. unfold verdict_of at 1 2.
  rewrite decide_True by (apply H; left).
  apply IH. intros n Hn. apply H. right. exact Hn.
Qed.

(** The loop on a sorted list of names stops at the first one whose read
    fails. *)
Lemma run_first_abort (name : str) (e : exn) (names : list str) (failures : list str) :
  StronglySorted str_le names ->
  name ∈ names ->
  verdict_of R root name = Aborted e ->
  (forall n, n ∈ names -> str_le n name -> n <> name ->
     forall e', verdict_of R root n <> Aborted e') ->
  run_result R root names failures = Raised e /\
  (forall op, op ∈ run_reads R root names ->
     exists n, n ∈ names /\ str_le n name /\ verdict_of R root n <> Skipped /\
               op = OpReadText (MIGRATIONS_DIR R // n)) /\
  (forall n, n ∈ names -> str_le n name -> verdict_of R root n <> Skipped ->
     OpReadText (MIGRATIONS_DIR R // n) ∈ run_reads R root names).
Proof.
  intros Hs. revert failures.
  induction Hs as [|h t Hs IH Hall]; intros failures Hin Hv Hbefore.
  - inversion Hin.
  - rewrite Forall_forall in Hall.
    destruct (decide (h = name)) as [->|Hne].
    + cbn [run_result run_reads]. rewrite Hv. split; [reflexivity|]. split.
      * intros op Hop. apply list_elem_of_singleton in Hop. subst op.
        exists name. split; [left|]. split; [apply str_le_refl|].
        split; [congruence | reflexivity].
      * intros n Hn Hle Hsk. apply list_elem_of_singleton.
        apply elem_of_cons in Hn. destruct Hn as [->|Hn]; [reflexivity|].
        assert (n = name) by (apply (anti_symm str_le); [exact Hle | apply Hall, Hn]).
        subst. reflexivity.
    + apply elem_of_cons in Hin. destruct Hin as [Heq|Hin]; [congruence|].
      assert (Hle : str_le h name) by (apply Hall, Hin).
      assert (Hh : forall e', verdict_of R root h <> Aborted e').
      { apply Hbefore; [left | exact Hle | exact Hne]. }
      assert (Hrest : forall n, n ∈ t -> str_le n name -> n <> name ->
                forall e', verdict_of R root n <> Aborted e').
      { intros n Hn. apply Hbefore. right. exact Hn. }
      cbn [run_result run_reads].
      destruct (verdict_of R root h) eqn:E.
      * destruct (IH failures Hin Hv Hrest) as [H1 [H2 H3]].
        split; [exact H1|]. split.
        -- intros op Hop. destruct (H2 op Hop) as [n [Hn Hrest']].
           exists n. split; [right; exact Hn | exact Hrest'].
        -- intros n Hn Hle' Hsk. apply elem_of_cons in Hn.
           destruct Hn as [->|Hn]; [congruence | apply H3; assumption].
      * destruct (IH failures Hin Hv Hrest) as [H1 [H2 H3]].
        split; [exact H1|]. split.
        -- intros op Hop. apply elem_of_cons in Hop. destruct Hop as [->|Hop].
           ++ exists h. split; [left|]. split; [exact Hle|]. split; [congruence|reflexivity].
           ++ destruct (H2 op Hop) as [n [Hn Hrest']].
              exists n. split; [right; exact Hn | exact Hrest'].
        -- intros n Hn Hle' Hsk. apply elem_of_cons in Hn.
           destruct Hn as [->|Hn]; [left | right; apply H3; assumption].
      * destruct (IH (failures ++ [rel_path_of h]) Hin Hv Hrest) as [H1 [H2 H3]].
        split; [exact H1|]. split.
        -- intros op Hop. apply elem_of_cons in Hop. destruct Hop as [->|Hop].
           ++ exists h. split; [left|]. split; [exact Hle|]. split; [congruence|reflexivity].
           ++ destruct (H2 op Hop) as [n [Hn Hrest']].
              exists n. split; [right; exact Hn | exact Hrest'].
        -- intros n Hn Hle' Hsk. apply elem_of_cons in Hn.
           destruct Hn as [->|Hn]; [left | right; apply H3; assumption].
      * exfalso. eapply Hh. reflexivity.
Qed.

End Runs.

Lemma run_result_congr (R1 R2 : Path) (r1 r2 : node) (names failures : list str) :
  (forall n, n ∈ names -> verdict_of R1 r1 n = verdict_of R2 r2 n) ->
  run_result R1 r1 names failures = run_result R2 r2 names failures.
Proof.
  revert failures. induction names as [|name rest IH]; intros failures H; [reflexivity|].
  cbn [run_result]. rewrite (H name) by left.
  destruct (verdict_of R2 r2 name); try reflexivity;
    apply IH; intros n Hn; apply H; right; exact Hn.
Qed.

Lemma run_reads_congr (R : Path) (r1 r2 : node) (names : list str) :
  (forall n, n ∈ names -> verdict_of R r1 n = verdict_of R r2 n) ->
  run_reads R r1 names = run_reads R r2 names.
Proof.
  induction names as [|name rest IH]; intros H; [reflexivity|].
  cbn [run_reads]. rewrite (H name) by left.
  rewrite IH by (intros n Hn; apply H; right; exact Hn). reflexivity.
Qed.

(** ** The printing loop *)

Lemma encodable_line (failure : str) :
  encodable (py "  - " ++ failure) = encodable failure.
Proof. rewrite encodable_app. reflexivity. Qed.

Lemma printed_printable (failures : list str) :
  Forall printable failures ->
  printed failures = (Returned tt, unlines (app (py "  - ") <$> failures)).
Proof.
  induction 1 as [|f rest Hf Hrest IH]; [reflexivity|].
  cbn [printed]. rewrite encodable_line.
  apply encodable_printable in Hf. rewrite Hf, IH. cbn [fst snd].
  rewrite fmap_cons, unlines_cons. reflexivity.
Qed.

Lemma printed_Returned (failures : list str) (u : unit) :
  (printed failures).1 = Returned u -> Forall printable failures.
Proof.
  induction failures as [|f rest IH]; [constructor|].
  cbn [printed]. rewrite encodable_line.
  destruct (encodable f) eqn:E; cbn [fst]; [|intros H; discriminate H].
  intros H. constructor; [apply encodable_printable; exact E | apply IH; exact H].
Qed.

Lemma printed_Raised (failures : list str) (e : exn) :
  (printed failures).1 = Raised e ->
  e = UnicodeEncodeError /\ exists f, f ∈ failures /\ ~ printable f.
Proof.
  induction failures as [|f rest IH]; [intros H; discriminate H|].
  cbn [printed]. rewrite encodable_line.
  destruct (encodable f) eqn:E; cbn [fst].
  - intros H. destruct (IH H) as [He [g [Hg Hng]]].
    split; [exact He|]. exists g. split; [right; exact Hg | exact Hng].
  - intros [= <-]. split; [reflexivity|]. exists f. split; [left|].
    intros Hp. apply encodable_printable in Hp. congruence.
Qed.

(** What is written is the lines of the failures that come before the
    first one that cannot be encoded. *)
Lemma printed_prefix (failures : list str) :
  exists shown,
    shown `prefix_of` failures /\
    (printed failures).2 = unlines (app (py "  - ") <$> shown).
Proof.
  induction failures as [|f rest IH].
  - exists []. split; [reflexivity|reflexivity].
  - cbn [printed]. destruct (encodable (py "  - " ++ f)).
    + destruct IH as [shown [Hpre Heq]]. exists (f :: shown). split.
      * apply prefix_cons. exact Hpre.
      * cbn [snd]. rewrite Heq, fmap_cons, unlines_cons. reflexivity.
    + exists []. split; [apply prefix_nil | reflexivity].
Qed.

(** ** Runs depend on the migrations directory only *)

Lemma lookup_entry_Some (entries : list (str * node)) (name : str) (x : node) :
  NoDup entries.*1 ->
  lookup_entry name entries = Some x <-> (name, x) ∈ entries.
Proof.
  induction entries as [|[n y] rest IH]; simpl; intros Hnd.
  - split; [intros H; discriminate H | intros H; inversion H].
  - apply NoDup_cons in Hnd. destruct Hnd as [Hn Hnd].
    rewrite elem_of_cons. destruct (decide (n = name)) as [->|Hne].
    + rewrite bool_decide_eq_true_2 by reflexivity.
      split; [intros [= ->]; left; reflexivity|].
      intros [[= ->]|Hin]; [reflexivity|].
      exfalso. apply Hn. apply list_elem_of_fmap. exists (name, x). auto.
    + rewrite bool_decide_eq_false_2 by exact Hne.
      rewrite IH by exact Hnd. split; [auto|].
      intros [[= -> ->]|Hin]; [contradiction | exact Hin].
Qed.

Lemma lookup_entry_perm (es1 es2 : list (str * node)) (name : str) :
  NoDup es1.*1 -> es1 ≡ₚ es2 -> lookup_entry name es1 = lookup_entry name es2.
Proof.
  intros Hnd Hp.
  assert (Hnd2 : NoDup es2.*1) by (rewrite <- Hp; exact Hnd).
  destruct (lookup_entry name es1) as [x|] eqn:E1.
  - symmetry. apply lookup_entry_Some; [exact Hnd2|].
    rewrite <- Hp. apply lookup_entry_Some; assumption.
  - destruct (lookup_entry name es2) as [y|] eqn:E2; [|reflexivity].
    apply lookup_entry_Some in E2; [|exact Hnd2]. rewrite <- Hp in E2.
    apply lookup_entry_Some in E2; [|exact Hnd]. congruence.
Qed.

Lemma lookup_entry_is_Some (es : list (str * node)) (name : str) :
  name ∈ es.*1 -> is_Some (lookup_entry name es).
Proof.
  induction es as [|[n x] rest IH]; simpl; intros H; [inversion H|].
  destruct (decide (n = name)) as [Heq|Hne].
  - rewrite bool_decide_eq_true_2 by exact Heq. eauto.
  - rewrite bool_decide_eq_false_2 by exact Hne.
    apply IH. apply elem_of_cons in H. destruct H as [H|H]; [congruence | exact H].
Qed.

Lemma entry_text_found (R : Path) (root : node) (name : str) :
  entry_text R root name = read_found (stat_child (stat root (MIGRATIONS_DIR R)) name).
Proof. unfold entry_text, node_read_text. rewrite stat_truediv. reflexivity. Qed.

(** A run is decided by the answer of [stat] at the migrations path, the
    names visited and their verdicts. *)
Lemma run_of_tree_congr (R : Path) (root1 root2 : node) :
  (forall e, stat root1 (MIGRATIONS_DIR R) = Raised e <->
             stat root2 (MIGRATIONS_DIR R) = Raised e) ->
  visited R root1 = visited R root2 ->
  (forall n, n ∈ visited R root1 -> verdict_of R root1 n = verdict_of R root2 n) ->
  run_of_tree R root1 = run_of_tree R root2.
Proof.
  intros Hstat Hvis Hverd. unfold run_of_tree.
  rewrite <- Hvis.
  rewrite <- (run_result_congr R R root1 root2 _ [] Hverd).
  rewrite <- (run_reads_congr R root1 root2 _ Hverd).
  destruct (stat root1 (MIGRATIONS_DIR R)) as [d1|e1] eqn:E1;
    destruct (stat root2 (MIGRATIONS_DIR R)) as [d2|e2] eqn:E2.
  - reflexivity.
  - destruct (Hstat e2) as [_ H]. specialize (H eq_refl). discriminate H.
  - destruct (Hstat e1) as [H _]. specialize (H eq_refl). discriminate H.
  - destruct (Hstat e1) as [H _]. specialize (H eq_refl). injection H as <-. reflexivity.
Qed.

Lemma same_directory_text (R : Path) (w1 w2 : world) (name : str) :
  same_directory R w1 w2 -> entry_text R (fs w1) name = entry_text R (fs w2) name.
Proof.
  rewrite !entry_text_found. unfold same_directory, migrations.
  intros [Heq | [l [s [es1 [es2 [H1 [H2 [Hnd Hp]]]]]]]].
  - rewrite Heq. reflexivity.
  - rewrite H1, H2. simpl. rewrite (lookup_entry_perm es1 es2) by assumption. reflexivity.
Qed.

Lemma same_directory_visited (R : Path) (w1 w2 : world) :
  same_directory R w1 w2 -> visited R (fs w1) = visited R (fs w2).
Proof.
  unfold same_directory, migrations, visited.
  intros [Heq | [l [s [es1 [es2 [H1 [H2 [Hnd Hp]]]]]]]].
  - rewrite Heq. reflexivity.
  - rewrite H1, H2. apply merge_sort_perm. destruct l; simpl; [|reflexivity].
    rewrite Hp. reflexivity.
Qed.

Lemma same_directory_verdict (R : Path) (w1 w2 : world) (name : str) :
  same_directory R w1 w2 -> verdict_of R (fs w1) name = verdict_of R (fs w2) name.
Proof. intros H. unfold verdict_of. rewrite (same_directory_text R w1 w2 name H). reflexivity. Qed.

Lemma same_directory_run (R : Path) (w1 w2 : world) :
  same_directory R w1 w2 -> run_of_tree R (fs w1) = run_of_tree R (fs w2).
Proof.
  intros H. apply run_of_tree_congr.
  - destruct H as [Heq | [l [s [es1 [es2 [H1 [H2 _]]]]]]]; unfold migrations in *.
    + intros e. rewrite Heq. reflexivity.
    + intros e. rewrite H1, H2. split; intros Hd; discriminate Hd.
  - apply same_directory_visited. exact H.
  - intros n _. apply same_directory_verdict. exact H.
Qed.

(** ** Projections of a run of [main] *)

Lemma printable_app (a b : str) : printable (a ++ b) <-> printable a /\ printable b.
Proof. unfold printable. apply Forall_app. Qed.

Lemma printable_py_prefix : printable (py "backend/migrations/").
Proof. apply encodable_printable. vm_compute. reflexivity. Qed.

Lemma printable_rel_path (name : str) : printable (rel_path_of name) <-> printable name.
Proof.
  unfold rel_path_of. rewrite printable_app. split; [intros [_ H]; exact H|].
  intros H. split; [apply printable_py_prefix | exact H].
Qed.

Lemma rel_path_of_inj (a b : str) : rel_path_of a = rel_path_of b -> a = b.
Proof. unfold rel_path_of. apply app_inv_head. Qed.

Global Instance rel_path_of_Inj : Inj (=) (=) rel_path_of.
Proof. intros a b. apply rel_path_of_inj. Qed.

Lemma truediv_inj (dir : Path) (a b : str) : dir // a = dir // b -> a = b.
Proof. unfold truediv. intros H. apply app_inv_head in H. congruence. Qed.

Lemma str_le_rel_path (a b : str) :
  str_le (rel_path_of a) (rel_path_of b) <-> str_le a b.
Proof. unfold rel_path_of. apply str_le_app. Qed.

Lemma LF_rel_path (name : str) : LF ∈ rel_path_of name <-> LF ∈ name.
Proof.
  unfold rel_path_of. rewrite elem_of_app. split; [|auto].
  intros [H|H]; [|exact H]. exfalso.
  assert (Hn : LF ∉ py "backend/migrations/") by compute_done.
  exact (Hn H).
Qed.

Lemma snoc_neq (failures : list str) (x : str) : failures ++ [x] <> failures.
Proof.
  intros H. apply (f_equal length) in H. rewrite length_app in H. simpl in H. lia.
Qed.

(** A property checked on the visited names holds of every candidate. *)
Lemma Forall_visited (R : Path) (w : world) (P : str -> Prop) :
  Forall P (visited R (fs w)) -> forall name, candidate R w name -> P name.
Proof.
  intros H name Hc. rewrite Forall_forall in H. apply H, elem_of_visited, Hc.
Qed.

Section Projections.

Variable R : Path.
Variable w : world.

Lemma main_outcome :
  (main R w).1 =
  match migrations R w with
  | Returned _ =>
    match run_result R (fs w) (visited R (fs w)) [] with
    | Raised e => Raised e
    | Returned [] => Returned 0%Z
    | Returned (f :: fl) =>
      match (printed (f :: fl)).1 with
      | Returned _ => Returned 1%Z
      | Raised e => Raised e
      end
    end
  | Raised e => if _ignore_error e then Returned 1%Z else Raised e
  end.
Proof.
  rewrite main_eq. unfold run_of_tree, migrations.
  destruct (stat (fs w) (MIGRATIONS_DIR R)) as [d|e].
  - destruct (run_result R (fs w) (visited R (fs w)) []) as [[|f fl]|e]; try reflexivity.
    destruct (printed (f :: fl)).1; reflexivity.
  - destruct (_ignore_error e); reflexivity.
Qed.

Lemma main_fs : fs (main R w).2 = fs w.
Proof. rewrite main_eq. destruct (run_of_tree R (fs w)) as [[[r out] err] ops]. reflexivity. Qed.

Lemma main_stdout : stdout (main R w).2 = stdout w ++ (run_of_tree R (fs w)).1.1.2.
Proof. rewrite main_eq. destruct (run_of_tree R (fs w)) as [[[r out] err] ops]. reflexivity. Qed.

Lemma main_stderr : stderr (main R w).2 = stderr w ++ (run_of_tree R (fs w)).1.2.
Proof. rewrite main_eq. destruct (run_of_tree R (fs w)) as [[[r out] err] ops]. reflexivity. Qed.

Lemma main_syscalls : syscalls (main R w).2 = syscalls w ++ (run_of_tree R (fs w)).2.
Proof. rewrite main_eq. destruct (run_of_tree R (fs w)) as [[[r out] err] ops]. reflexivity. Qed.

Lemma visited_absent (e : exn) :
  migrations R w = Raised e -> visited R (fs w) = [].
Proof. unfold migrations, visited. intros ->. reflexivity. Qed.

(** The outcome of the scan as a function of the tree. *)
Lemma scan_outcome (failures : list str) :
  (scan R failures w).1 =
  match migrations R w with
  | Returned _ => run_result R (fs w) (visited R (fs w)) failures
  | Raised e => if _ignore_error e then Returned failures else Raised e
  end.
Proof.
  unfold migrations. destruct (stat (fs w) (MIGRATIONS_DIR R)) as [d|e] eqn:Hd.
  - rewrite scan_eq by (intros e He; congruence). reflexivity.
  - destruct (_ignore_error e) eqn:He.
    + rewrite scan_eq by (intros e' He'; congruence).
      cbn [fst]. rewrite (visited_absent e Hd). reflexivity.
    + apply scan_raises; assumption.
Qed.

Lemma scan_present (failures : list str) :
  present R w ->
  (scan R failures w).1 = run_result R (fs w) (visited R (fs w)) failures.
Proof. intros [d Hd]. rewrite scan_outcome, Hd. reflexivity. Qed.

Lemma candidate_present (name : str) :
  candidate R w name ->
  exists l s es, migrations R w = Returned (Dir l s es) /\ name ∈ es.*1.
Proof.
  intros [Hin _]. unfold scandir in Hin.
  destruct (migrations R w) as [[r data|[|] s es|]|e];
    first [ inversion Hin; fail | eauto ].
Qed.

Lemma candidate_is_present (name : str) : candidate R w name -> present R w.
Proof. intros Hc. destruct (candidate_present name Hc) as [l [s [es [H _]]]]. eexists. exact H. Qed.

(** When every non-exempt candidate can be read the loop runs to its end. *)
Lemma readable_no_abort :
  (forall name, candidate R w name -> ~ exempt name -> readable_entry R w name) ->
  no_abort R (fs w) (visited R (fs w)).
Proof.
  intros Hr name Hin e He. apply elem_of_visited in Hin.
  pose proof He as He'. apply verdict_Aborted in He'. destruct He' as [Hx _].
  eapply verdict_readable; eauto.
Qed.

Lemma no_abort_readable :
  no_abort R (fs w) (visited R (fs w)) ->
  forall name, candidate R w name -> ~ exempt name -> readable_entry R w name.
Proof.
  intros Hna name Hc Hx. apply elem_of_visited in Hc. unfold readable_entry.
  destruct (text_of R w name) as [text|e] eqn:E; [eauto|].
  exfalso. apply (Hna name Hc e). apply verdict_Aborted. auto.
Qed.

(** The failure list of a completed scan, member by member. *)
Lemma failures_elem (failures : list str) (rel : str) :
  run_result R (fs w) (visited R (fs w)) [] = Returned failures ->
  rel ∈ failures <->
  exists name, candidate R w name /\ ~ exempt name /\ undocumented R w name /\
               rel = rel_path_of name.
Proof.
  intros Hrun. pose proof (run_result_Returned _ _ _ _ _ Hrun) as Hna.
  rewrite (run_result_no_abort _ _ _ _ Hna) in Hrun. simpl in Hrun.
  injection Hrun as <-. rewrite list_elem_of_fmap. split.
  - intros [name [-> Hin]]. apply list_elem_of_filter in Hin.
    destruct Hin as [Hv Hin]. apply verdict_Failed in Hv. destruct Hv as [Hx Hu].
    apply elem_of_visited in Hin. eauto 6.
  - intros [name [Hc [Hx [Hu ->]]]]. exists name. split; [reflexivity|].
    apply list_elem_of_filter. split.
    + apply verdict_Failed. auto.
    + apply elem_of_visited. exact Hc.
Qed.

Lemma failures_sorted (failures : list str) :
  run_result R (fs w) (visited R (fs w)) [] = Returned failures ->
  StronglySorted str_le failures.
Proof.
  intros Hrun. pose proof (run_result_Returned _ _ _ _ _ Hrun) as Hna.
  rewrite (run_result_no_abort _ _ _ _ Hna) in Hrun. simpl in Hrun.
  injection Hrun as <-.
  eapply StronglySorted_fmap; [intros a b Hab; apply str_le_rel_path; exact Hab|].
  apply StronglySorted_filter. apply visited_sorted.
Qed.

(** Every failure can be printed when every undocumented entry has a
    printable name, and conversely. *)
Lemma failures_printable (failures : list str) :
  run_result R (fs w) (visited R (fs w)) [] = Returned failures ->
  Forall printable failures <->
  forall name, candidate R w name -> ~ exempt name -> undocumented R w name ->
               printable name.
Proof.
  intros Hrun. rewrite Forall_forall. split.
  - intros H name Hc Hx Hu. apply printable_rel_path. apply H.
    apply (failures_elem _ _ Hrun). eauto 6.
  - intros H rel Hin. apply (failures_elem _ _ Hrun) in Hin.
    destruct Hin as [name [Hc [Hx [Hu ->]]]]. apply printable_rel_path. auto.
Qed.

Lemma failures_no_LF (failures : list str) :
  run_result R (fs w) (visited R (fs w)) [] = Returned failures ->
  (forall name, candidate R w name -> ~ exempt name -> undocumented R w name ->
                LF ∉ name) ->
  Forall (fun f => LF ∉ f) failures.
Proof.
  intros Hrun H. apply Forall_forall. intros rel Hin.
  apply (failures_elem _ _ Hrun) in Hin.
  destruct Hin as [name [Hc [Hx [Hu ->]]]]. rewrite LF_rel_path. auto.
Qed.

(** The ways a run of [main] ends. *)
Lemma main_cases :
  (absent R w /\ (main R w).1 = Returned 1%Z) \/
  (migrations R w = Raised PermissionError /\ (main R w).1 = Raised PermissionError) \/
  (present R w /\
   exists failures,
     run_result R (fs w) (visited R (fs w)) [] = Returned failures /\
     (forall name, candidate R w name -> ~ exempt name -> readable_entry R w name) /\
     ((failures = [] /\ (main R w).1 = Returned 0%Z) \/
      (failures <> [] /\ Forall printable failures /\ (main R w).1 = Returned 1%Z) \/
      (failures <> [] /\ ~ Forall printable failures /\
       (main R w).1 = Raised UnicodeEncodeError))) \/
  (present R w /\
   exists e name,
     (main R w).1 = Raised e /\
     candidate R w name /\ ~ exempt name /\ text_of R w name = Raised e).
Proof.
  rewrite main_outcome. unfold absent, present.
  destruct (migrations R w) as [d|e] eqn:Hd.
  - right. right.
    destruct (run_result R (fs w) (visited R (fs w)) []) as [fl|e] eqn:Hrun.
    + left. split; [eauto|]. exists fl. split; [reflexivity|].
      split; [apply no_abort_readable; eapply run_result_Returned; exact Hrun|].
      destruct fl as [|f fl]; [left; auto|]. right.
      destruct (printed (f :: fl)).1 as [u|e] eqn:Hp.
      * left. split; [congruence|]. split; [|reflexivity].
        eapply printed_Returned. exact Hp.
      * right. split; [congruence|].
        destruct (printed_Raised _ _ Hp) as [-> [g [Hg Hng]]].
        split; [|reflexivity]. intros Hall. rewrite Forall_forall in Hall. auto.
    + right. split; [eauto|].
      destruct (run_result_Raised _ _ _ _ _ Hrun) as [name [Hin Hv]].
      apply elem_of_visited in Hin. apply verdict_Aborted in Hv. destruct Hv as [Hx Ht].
      exists e, name. auto.
  - pose proof Hd as Hs. unfold migrations in Hs.
    destruct (stat_errors _ _ _ Hs) as [He|[He|He]]; rewrite He; cbn [_ignore_error].
    + left. auto.
    + left. auto.
    + right. left. auto.
Qed.

End Projections.

(** ** What a run writes and which accesses it makes *)

Section Emitted.

Variable R : Path.
Variable w : world.

Lemma main_syscalls_eq :
  syscalls (main R w).2 =
  syscalls w ++
  match migrations R w with
  | Returned _ =>
    [OpExists (MIGRATIONS_DIR R); OpScandir (MIGRATIONS_DIR R)] ++
    run_reads R (fs w) (visited R (fs w))
  | Raised _ => [OpExists (MIGRATIONS_DIR R)]
  end.
Proof.
  rewrite main_syscalls. f_equal. unfold run_of_tree, migrations.
  destruct (stat (fs w) (MIGRATIONS_DIR R)) as [d|e].
  - destruct (run_result R (fs w) (visited R (fs w)) []) as [[|f fl]|e]; try reflexivity.
    destruct (printed (f :: fl)).1; reflexivity.
  - destruct (_ignore_error e); reflexivity.
Qed.

Lemma main_stdout_eq :
  stdout (main R w).2 =
  stdout w ++
  match migrations R w with
  | Returned _ =>
    match run_result R (fs w) (visited R (fs w)) [] with
    | Returned (f :: fl) =>
      py "The following migrations are missing a '-- Rollback:' guidance block:"
        ++ LF :: (printed (f :: fl)).2
    | _ => []
    end
  | Raised _ => []
  end.
Proof.
  rewrite main_stdout. f_equal. unfold run_of_tree, migrations.
  destruct (stat (fs w) (MIGRATIONS_DIR R)) as [d|e].
  - destruct (run_result R (fs w) (visited R (fs w)) []) as [[|f fl]|e]; try reflexivity.
    destruct (printed (f :: fl)).1; cbn [fst snd]; rewrite <- app_assoc; reflexivity.
  - destruct (_ignore_error e); reflexivity.
Qed.

Lemma main_stderr_eq :
  stderr (main R w).2 =
  stderr w ++
  match migrations R w with
  | Returned _ =>
    match run_result R (fs w) (visited R (fs w)) [] with
    | Returned (f :: fl) =>
      match (printed (f :: fl)).1 with
      | Returned _ =>
        py "Add rollback notes or update the allowlist once legacy files are documented."
          ++ [LF]
      | Raised _ => []
      end
    | _ => []
    end
  | Raised e =>
    if _ignore_error e
    then backslashreplace
           (py "Missing migrations directory: " ++ Path_str (MIGRATIONS_DIR R)) ++ [LF]
    else []
  end.
Proof.
  rewrite main_stderr. f_equal. unfold run_of_tree, migrations.
  destruct (stat (fs w) (MIGRATIONS_DIR R)) as [d|e].
  - destruct (run_result R (fs w) (visited R (fs w)) []) as [[|f fl]|e]; try reflexivity.
    destruct (printed (f :: fl)).1; reflexivity.
  - destruct (_ignore_error e); reflexivity.
Qed.

(** What standard output receives when the scan ends with failures that
    can all be encoded. *)
Lemma main_stdout_report (failures : list str) :
  run_result R (fs w) (visited R (fs w)) [] = Returned failures ->
  failures <> [] -> Forall printable failures ->
  stdout (main R w).2 = stdout w ++ unlines (report failures).
Proof.
  intros Hrun Hne Hp. rewrite main_stdout_eq. f_equal.
  destruct (migrations R w) as [d|e] eqn:Hd.
  - rewrite Hrun. destruct failures as [|f fl]; [congruence|].
    rewrite (printed_printable _ Hp). unfold report. rewrite unlines_cons. reflexivity.
  - exfalso. apply Hne. rewrite (visited_absent R w e Hd) in Hrun.
    simpl in Hrun. congruence.
Qed.

Lemma readable_cases (name : str) :
  readable_entry R w name -> documented R w name \/ undocumented R w name.
Proof.
  intros [text Ht]. destruct (str_in (py "-- Rollback:") text) eqn:E.
  - left. exists text. split; [exact Ht | apply str_in_occurs; exact E].
  - right. exists text. split; [exact Ht | apply str_in_false; exact E].
Qed.

Lemma documented_not_undocumented (name : str) :
  documented R w name -> ~ undocumented R w name.
Proof.
  intros [text [Ht Hocc]] [text' [Ht' Hno]].
  assert (text' = text) by congruence. subst. contradiction.
Qed.

(** The errors a read of a matched entry can end in. *)
Lemma text_of_candidate (name : str) (e : exn) :
  candidate R w name -> text_of R w name = Raised e ->
  e = PermissionError \/ e = IsADirectoryError \/ e = UnicodeDecodeError \/
  e = FileNotFoundError.
Proof.
  intros Hc. destruct (candidate_present R w name Hc) as [l [s [es [Hm Hin]]]].
  rewrite text_of_found, Hm. cbn [stat_child].
  destruct s; [|intros [= <-]; auto].
  destruct (lookup_entry_is_Some es name Hin) as [x ->].
  destruct x as [[|] data|l' s' entries|]; cbn [read_found].
  - destruct (utf8_decode data); intros H; [discriminate H|].
    injection H as <-. auto.
  - intros [= <-]; auto.
  - intros [= <-]; auto.
  - intros [= <-]; auto 6.
Qed.

End Emitted.

Lemma report_no_LF (failures : list str) :
  Forall (fun f => LF ∉ f) failures -> Forall (fun l => LF ∉ l) (report failures).
Proof.
  intros H. unfold report. apply Forall_cons. split; [compute_done|].
  apply Forall_fmap. eapply Forall_impl; [exact H|].
  intros f Hf Hin. apply elem_of_app in Hin. destruct Hin as [Hin|Hin]; [|exact (Hf Hin)].
  assert (Hn : LF ∉ py "  - ") by compute_done. exact (Hn Hin).
Qed.

Lemma unlines_app (a b : list str) : unlines (a ++ b) = unlines a ++ unlines b.
Proof. unfold unlines. rewrite fmap_app, concat_app. reflexivity. Qed.

Lemma printed_line_report (failures : list str) (rel : str) :
  rel ∈ failures -> printed_line (unlines (report failures)) (py "  - " ++ rel).
Proof.
  intros Hin. apply list_elem_of_split in Hin. destruct Hin as [l1 [l2 ->]].
  exists (report l1), (app (py "  - ") <$> l2).
  unfold report. rewrite fmap_app, fmap_cons, app_comm_cons, unlines_app.
  rewrite (unlines_cons (py "  - " ++ rel)). reflexivity.
Qed.

Lemma same_directory_scan (R : Path) (w1 w2 : world) (failures : list str) :
  same_directory R w1 w2 -> (scan R failures w1).1 = (scan R failures w2).1.
Proof.
  intros Hsame. rewrite !scan_outcome.
  rewrite <- (same_directory_visited R w1 w2 Hsame).
  rewrite <- (run_result_congr R R (fs w1) (fs w2) (visited R (fs w1)) failures)
    by (intros n _; apply same_directory_verdict; exact Hsame).
  destruct Hsame as [Heq | [l [s [es1 [es2 [H1 [H2 _]]]]]]].
  - rewrite Heq. reflexivity.
  - rewrite H1, H2. reflexivity.
Qed.

Lemma same_directory_rerun (R : Path) (w : world) : same_directory R (main R w).2 w.
Proof. left. unfold migrations. rewrite main_fs. reflexivity. Qed.

Lemma loop_body_step (R : Path) (path : Path) (failures : list str) (w : world) :
  fs (loop_body R path failures w).2 = fs w /\
  stdout (loop_body R path failures w).2 = stdout w /\
  stderr (loop_body R path failures w).2 = stderr w /\
  forall failures', (loop_body R path failures w).1 = Returned failures' ->
    failures' = failures \/ exists rel, failures' = failures ++ [rel].
Proof.
  unfold loop_body, bind, lift.
  destruct (relative_to path R) as [rel|e].
  - destruct (decide (as_posix rel ∈ ALLOWLIST)) as [Hx|Hx].
    + unfold ret. cbn [fst snd].
      split; [reflexivity|]. split; [reflexivity|]. split; [reflexivity|].
      intros fl [= <-]. auto.
    + unfold Path_read_text.
      destruct (node_read_text (fs w) path) as [text|e].
      * destruct (str_in (py "-- Rollback:") text);
          unfold ret, log; cbn [fst snd fs stdout stderr negb];
          (split; [reflexivity|]; split; [reflexivity|]; split; [reflexivity|]);
          intros fl [= <-]; eauto.
      * unfold log; cbn [fst snd fs stdout stderr].
        split; [reflexivity|]. split; [reflexivity|]. split; [reflexivity|].
        intros fl H. discriminate H.
  - cbn [fst snd].
    split; [reflexivity|]. split; [reflexivity|]. split; [reflexivity|].
    intros fl H. discriminate H.
Qed.



(** ** The claims of the specification *)

Lemma absent_not_present (R : Path) (w : world) : absent R w -> ~ present R w.
Proof. intros [H|H] [d Hd]; congruence. Qed.

Lemma denied_not_present (R : Path) (w : world) :
  migrations R w = Raised PermissionError -> ~ present R w.
Proof. intros H [d Hd]. congruence. Qed.

Lemma denied_not_absent (R : Path) (w : world) :
  migrations R w = Raised PermissionError -> ~ absent R w.
Proof. intros H [Ha|Ha]; congruence. Qed.


(** C2.  For a non-exempt entry matched by [*.sql] whose text is [text],
    the loop leaves the failure list as it is exactly when the marker
    occurs in [text], literally, and appends the relative path exactly when
    it does not; the failure list of a completed scan holds the relative
    path exactly when the marker does not occur.  The marker is the twelve
    characters [-- Rollback:]: two hyphens, a space, the word with a capital
    R and a colon. *)
Theorem C2_marker_decides (R : Path) (w : world) (name text : str) :
  candidate R w name -> ~ exempt name -> text_of R w name = Returned text ->
  (forall failures,
     (loop_body R (MIGRATIONS_DIR R // name) failures w).1 = Returned failures
     <-> occurs_in (py "-- Rollback:") text) /\
  (forall failures,
     (loop_body R (MIGRATIONS_DIR R // name) failures w).1 =
       Returned (failures ++ [rel_path_of name])
     <-> ~ occurs_in (py "-- Rollback:") text) /\
  (forall failures,
     (scan R [] w).1 = Returned failures ->
     rel_path_of name ∉ failures <-> occurs_in (py "-- Rollback:") text) /\
  py "-- Rollback:" = [45; 45; 32; 82; 111; 108; 108; 98; 97; 99; 107; 58]%N.
Proof.
  intros Hc Hx Ht.
  assert (Hv : verdict_of R (fs w) name =
               if str_in (py "-- Rollback:") text then Passed else Failed).
  { unfold verdict_of. rewrite decide_False by exact Hx.
    rewrite <- text_of_entry_text, Ht. reflexivity. }
  split; [|split; [|split; [|reflexivity]]]; intros failures.
  - rewrite loop_body_eq, Hv. destruct (str_in (py "-- Rollback:") text) eqn:E; simpl.
    + apply str_in_occurs in E. split; auto.
    + apply str_in_false in E. split; [|intros; contradiction].
      intros [= H]. exfalso. eapply snoc_neq. exact H.
  - rewrite loop_body_eq, Hv. destruct (str_in (py "-- Rollback:") text) eqn:E; simpl.
    + apply str_in_occurs in E. split; [|intros; contradiction].
      intros [= H]. exfalso. eapply snoc_neq. symmetry. exact H.
    + apply str_in_false in E. split; auto.
  - intros Hscan. apply scan_Returned in Hscan.
    pose proof (failures_elem R w failures (rel_path_of name) Hscan) as Hel.
    destruct (str_in (py "-- Rollback:") text) eqn:E.
    + apply str_in_occurs in E. split; [auto|]. intros _ Hin.
      apply Hel in Hin. destruct Hin as [name' [_ [_ [[text' [Ht' Hno]] Heq]]]].
      apply rel_path_of_inj in Heq. subst name'.
      assert (text' = text) by congruence. subst. contradiction.
    + apply str_in_false in E. split; [|intros; contradiction].
      intros Hnot. exfalso. apply Hnot, Hel. exists name.
      split; [exact Hc|]. split; [exact Hx|]. split; [|reflexivity].
      exists text. auto.
Qed.

(** C3.  For an entry whose relative path is in the exemption table, the
    loop body returns at once: the failure list and the whole world are
    left as they are, whatever the entry holds.  No run of [main] reads the
    entry, and no completed scan lists it. *)
Theorem C3_exempt_skipped (R : Path) (w : world) (name : str) :
  exempt name ->
  (forall failures,
     loop_body R (MIGRATIONS_DIR R // name) failures w = (Returned failures, w)) /\
  (exists ops, syscalls (main R w).2 = syscalls w ++ ops /\
               OpReadText (MIGRATIONS_DIR R // name) ∉ ops) /\
  (forall failures, (scan R [] w).1 = Returned failures -> rel_path_of name ∉ failures).
Proof.
  intros Hx. pose proof (proj2 (verdict_Skipped R w name) Hx) as Hv.
  split; [|split].
  - intros failures. rewrite loop_body_eq, Hv. reflexivity.
  - eexists. split; [apply main_syscalls_eq|].
    assert (Hreads : OpReadText (MIGRATIONS_DIR R // name) ∉
                     run_reads R (fs w) (visited R (fs w))).
    { intros Hin. apply run_reads_elem in Hin.
      destruct Hin as [name' [_ [Hv' [= Heq]]]].
      apply truediv_inj in Heq. subst name'. contradiction. }
    destruct (migrations R w).
    + rewrite elem_of_app. intros [Hin|Hin]; [|contradiction].
      apply elem_of_cons in Hin. destruct Hin as [Hin|Hin]; [congruence|].
      apply list_elem_of_singleton in Hin. congruence.
    + intros Hin. apply list_elem_of_singleton in Hin. congruence.
  - intros failures Hscan Hin. apply scan_Returned in Hscan.
    apply (failures_elem R w failures _ Hscan) in Hin.
    destruct Hin as [name' [_ [Hx' [_ Heq]]]].
    apply rel_path_of_inj in Heq. subst name'. contradiction.
Qed.


(** C5 (amended).  The failure list of a completed scan is sorted by the
    code-point order of [str] on the relative paths, and it is the same in
    any world that holds the same directory enumerated in another order.
    When it is not empty and every path in it can be encoded, standard
    output receives the header followed by each path, indented, in the
    order of the list, every one ended by a line feed; these are exactly
    one line per path when no path holds a line feed. *)
Theorem C5_sorted_report (R : Path) (w : world) (failures : list str) :
  (scan R [] w).1 = Returned failures ->
  StronglySorted str_le failures /\
  (forall w2, same_directory R w w2 -> (scan R [] w2).1 = Returned failures) /\
  (failures <> [] -> Forall printable failures ->
   exists out,
     stdout (main R w).2 = stdout w ++ out /\
     out = unlines (report failures) /\
     (Forall (fun f => LF ∉ f) failures -> lines_of out = report failures)).
Proof.
  intros Hscan. pose proof (scan_Returned R _ _ _ Hscan) as Hrun. split; [|split].
  - eapply failures_sorted. exact Hrun.
  - intros w2 Hsame. rewrite <- (same_directory_scan R w w2 [] Hsame). exact Hscan.
  - intros Hne Hp. exists (unlines (report failures)).
    split; [apply main_stdout_report; assumption|]. split; [reflexivity|].
    intros Hlf. apply lines_of_unlines, report_no_LF, Hlf.
Qed.

(** C6 (amended).  When something is at the migrations path and every
    non-exempt entry matched by [*.sql] can be read, the scan runs to its
    end: every such entry is read and every one that lacks the marker is in
    the failure list.  When moreover every path of that list can be encoded
    on standard output, each of them has its line there, after the header,
    and the exit code is 1 exactly when the complete list is not empty. *)
Theorem C6_all_reported (R : Path) (w : world) :
  present R w ->
  (forall name, candidate R w name -> ~ exempt name -> readable_entry R w name) ->
  exists failures,
    (scan R [] w).1 = Returned failures /\
    (forall name, candidate R w name -> ~ exempt name -> undocumented R w name ->
       rel_path_of name ∈ failures) /\
    (forall name, candidate R w name -> ~ exempt name ->
       OpReadText (MIGRATIONS_DIR R // name) ∈ syscalls (main R w).2) /\
    (Forall printable failures ->
     (main R w).1 = Returned (match failures with [] => 0 | _ :: _ => 1 end)%Z /\
     exists out,
       stdout (main R w).2 = stdout w ++ out /\
       forall name, candidate R w name -> ~ exempt name -> undocumented R w name ->
         printed_line out (py "  - " ++ rel_path_of name)).
Proof.
  intros Hp Hr.
  pose proof (readable_no_abort R w Hr) as Hna.
  pose proof (run_result_no_abort R (fs w) _ [] Hna) as Hrun. simpl in Hrun.
  pose proof Hp as [d Hd].
  eexists. split; [rewrite scan_present by exact Hp; exact Hrun|].
  split; [|split].
  - intros name Hc Hx Hu. apply (failures_elem R w _ _ Hrun). exists name. auto.
  - intros name Hc Hx. rewrite main_syscalls_eq, Hd.
    apply elem_of_app. right. apply elem_of_app. right.
    apply run_reads_no_abort; [exact Hna| |].
    + apply elem_of_visited. exact Hc.
    + intros Hv. apply verdict_Skipped in Hv. contradiction.
  - intros Hpr. split.
    + rewrite main_outcome, Hd, Hrun.
      destruct (rel_path_of <$> filter _ _) as [|f fl]; [reflexivity|].
      rewrite (printed_printable _ Hpr). reflexivity.
    + destruct (rel_path_of <$> filter _ _) as [|f fl] eqn:E.
      * exists []. split; [rewrite main_stdout_eq, Hd, Hrun; reflexivity|].
        intros name Hc Hx Hu. exfalso.
        assert (Hin : rel_path_of name ∈ @nil str).
        { apply (failures_elem R w _ _ Hrun). exists name. auto. }
        inversion Hin.
      * exists (unlines (report (f :: fl))).
        split; [apply main_stdout_report; [exact Hrun | congruence | exact Hpr]|].
        intros name Hc Hx Hu. apply printed_line_report.
        apply (failures_elem R w _ _ Hrun). exists name. auto.
Qed.

(** C7.  If reading some non-exempt entry matched by [*.sql] fails, [main]
    does not return: it raises the error of a failed read of such an entry,
    and nothing at all has been printed, neither a failure list nor a
    diagnostic. *)
Theorem C7_read_error_aborts (R : Path) (w : world) (name : str) (e : exn) :
  candidate R w name -> ~ exempt name -> text_of R w name = Raised e ->
  exists e' name',
    candidate R w name' /\ ~ exempt name' /\ text_of R w name' = Raised e' /\
    (main R w).1 = Raised e' /\
    stdout (main R w).2 = stdout w /\
    stderr (main R w).2 = stderr w.
Proof.
  intros Hc Hx Ht.
  destruct (candidate_is_present R w name Hc) as [d Hd].
  assert (Hv : verdict_of R (fs w) name = Aborted e) by (apply verdict_Aborted; auto).
  apply elem_of_visited in Hc.
  destruct (run_result_abort R (fs w) _ [] name e Hc Hv) as [e' Hrun].
  destruct (run_result_Raised _ _ _ _ _ Hrun) as [name' [Hin' Hv']].
  apply elem_of_visited in Hin'. apply verdict_Aborted in Hv'. destruct Hv' as [Hx' Ht'].
  exists e', name'. split; [exact Hin'|]. split; [exact Hx'|]. split; [exact Ht'|].
  rewrite main_outcome, main_stdout_eq, main_stderr_eq, Hd, Hrun.
  rewrite !app_nil_r. auto.
Qed.

(** C8.  A run of [main] leaves the directory tree exactly as it found it;
    its only writes are text added at the end of standard output and of
    standard error. *)
Theorem C8_read_only (R : Path) (w : world) :
  fs (main R w).2 = fs w /\
  stdout w `prefix_of` stdout (main R w).2 /\
  stderr w `prefix_of` stderr (main R w).2.
Proof.
  split; [apply main_fs|].
  rewrite main_stdout, main_stderr. split; apply prefix_app_r; reflexivity.
Qed.

(** C9.  Two runs over the same migrations directory, in worlds that may
    differ in everything else, give the same outcome, the same failure
    list and print the same text; and a second run right after a first
    one repeats its outcome and its text. *)
Theorem C9_deterministic (R : Path) (w1 w2 : world) :
  (same_directory R w1 w2 ->
   (main R w1).1 = (main R w2).1 /\
   (scan R [] w1).1 = (scan R [] w2).1 /\
   exists out err,
     stdout (main R w1).2 = stdout w1 ++ out /\
     stdout (main R w2).2 = stdout w2 ++ out /\
     stderr (main R w1).2 = stderr w1 ++ err /\
     stderr (main R w2).2 = stderr w2 ++ err) /\
  (let w' := (main R w1).2 in
   (main R w').1 = (main R w1).1 /\
   (scan R [] w').1 = (scan R [] w1).1 /\
   exists out err,
     stdout w' = stdout w1 ++ out /\
     stdout (main R w').2 = stdout w' ++ out /\
     stderr w' = stderr w1 ++ err /\
     stderr (main R w').2 = stderr w' ++ err).
Proof.
  assert (Hgen : forall wa wb, same_directory R wa wb ->
            (main R wa).1 = (main R wb).1 /\
            (scan R [] wa).1 = (scan R [] wb).1 /\
            exists out err,
              stdout (main R wa).2 = stdout wa ++ out /\
              stdout (main R wb).2 = stdout wb ++ out /\
              stderr (main R wa).2 = stderr wa ++ err /\
              stderr (main R wb).2 = stderr wb ++ err).
  { intros wa wb Hsame. pose proof (same_directory_run R wa wb Hsame) as Hrun.
    split; [|split].
    - rewrite !main_eq, Hrun. destruct (run_of_tree R (fs wb)) as [[[r out] err] ops].
      reflexivity.
    - apply same_directory_scan. exact Hsame.
    - exists (run_of_tree R (fs wa)).1.1.2, (run_of_tree R (fs wa)).1.2.
      rewrite !main_stdout, !main_stderr, Hrun. auto. }
  split.
  - apply Hgen.
  - cbv zeta.
    destruct (Hgen (main R w1).2 w1 (same_directory_rerun R w1))
      as [H1 [H2 [out [err [Ha [Hb [Hc Hd]]]]]]].
    split; [exact H1|]. split; [exact H2|].
    exists out, err. auto.
Qed.

(** C10.  On a successful run nothing is printed: when [main] returns 0
    both streams are as they were; and when something is at the migrations
    path and the scan ends with an empty failure list, [main] returns 0. *)
Theorem C10_silent_success (R : Path) (w : world) :
  ((main R w).1 = Returned 0%Z ->
   stdout (main R w).2 = stdout w /\ stderr (main R w).2 = stderr w) /\
  (present R w -> (scan R [] w).1 = Returned [] ->
   (main R w).1 = Returned 0%Z /\
   stdout (main R w).2 = stdout w /\ stderr (main R w).2 = stderr w).
Proof.
  rewrite main_outcome, main_stdout_eq, main_stderr_eq. split.
  - destruct (migrations R w) as [d|e].
    + destruct (run_result R (fs w) (visited R (fs w)) []) as [[|f fl]|e].
      * intros _. rewrite !app_nil_r. auto.
      * destruct (printed (f :: fl)).1; intros H; discriminate H.
      * intros H; discriminate H.
    + destruct (_ignore_error e); intros H; discriminate H.
  - intros Hp Hscan. rewrite scan_present in Hscan by exact Hp.
    destruct Hp as [d ->]. rewrite Hscan. rewrite !app_nil_r. auto.
Qed.

(** ** The claims at concrete trees *)

Lemma printed_line_occurs (text line : str) : printed_line text line -> occurs_in line text.
Proof. intros [before [after ->]]. exists (unlines before), ([LF] ++ unlines after). reflexivity. Qed.



(** The marker in a text gives an unchanged failure list; the marker in
    lower case gives the relative path appended. *)
Lemma C2_marker_decides_witness :
  (loop_body repo (MIGRATIONS_DIR repo // py "m_ok.sql") [] demo_c).1 = Returned [] /\
  (loop_body repo (MIGRATIONS_DIR repo // py "a_first.sql") [] demo_c).1 =
    Returned [py "backend/migrations/a_first.sql"].
Proof.
  split.
  - destruct (C2_marker_decides repo demo_c (py "m_ok.sql") (py "x -- Rollback: y"))
      as [H _].
    + compute_done.
    + compute_done.
    + vm_compute. reflexivity.
    + apply H. exists (py "x "), (py " y"). reflexivity.
  - destruct (C2_marker_decides repo demo_c (py "a_first.sql") (py "-- rollback: lower case"))
      as [_ [H _]].
    + compute_done.
    + compute_done.
    + vm_compute. reflexivity.
    + apply (H []). apply str_in_false. vm_compute. reflexivity.
Defined.

Lemma C3_exempt_skipped_witness :
  (forall failures,
     loop_body repo (MIGRATIONS_DIR repo // py "1 - init.sql") failures demo_nested =
     (Returned failures, demo_nested)) /\
  (exists ops, syscalls (main repo demo_nested).2 = syscalls demo_nested ++ ops /\
               OpReadText (MIGRATIONS_DIR repo // py "1 - init.sql") ∉ ops) /\
  (forall failures, (scan repo [] demo_nested).1 = Returned failures ->
                    rel_path_of (py "1 - init.sql") ∉ failures).
Proof.
  apply (C3_exempt_skipped repo demo_nested (py "1 - init.sql")). compute_done.
Defined.



(** C5 as stated fails in two ways.  On [demo_linefeed] one relative path
    offends, yet standard output holds two lines after the header, the
    first of them the line of the documented [m_ok.sql].  On
    [demo_unprintable] two relative paths offend, yet standard output holds
    the header alone. *)
Lemma C5_counterexample :
  ((scan repo [] demo_linefeed).1 =
     Returned [py "backend/migrations/m_ok.sql" ++ [LF] ++ py "x.sql"] /\
   documented repo demo_linefeed (py "m_ok.sql") /\
   lines_of (stdout (main repo demo_linefeed).2) =
     [py "The following migrations are missing a '-- Rollback:' guidance block:";
      py "  - backend/migrations/m_ok.sql";
      py "x.sql"]) /\
  ((scan repo [] demo_unprintable).1 =
     Returned [py "backend/migrations/b_" ++ [56448%N] ++ py ".sql";
               py "backend/migrations/c_plain.sql"] /\
   lines_of (stdout (main repo demo_unprintable).2) =
     [py "The following migrations are missing a '-- Rollback:' guidance block:"]).
Proof.
  split; [split; [|split]|split].
  - vm_compute. reflexivity.
  - compute_done.
  - vm_compute. reflexivity.
  - vm_compute. reflexivity.
  - vm_compute. reflexivity.
Qed.

Lemma C5_sorted_report_witness :
  StronglySorted str_le
    [py "backend/migrations/a_first.sql"; py "backend/migrations/z_last.sql"] /\
  (forall w2, same_directory repo demo_c w2 ->
     (scan repo [] w2).1 =
     Returned [py "backend/migrations/a_first.sql"; py "backend/migrations/z_last.sql"]) /\
  exists out,
    stdout (main repo demo_c).2 = stdout demo_c ++ out /\
    lines_of out =
    [py "The following migrations are missing a '-- Rollback:' guidance block:";
     py "  - backend/migrations/a_first.sql";
     py "  - backend/migrations/z_last.sql"].
Proof.
  destruct (C5_sorted_report repo demo_c
              [py "backend/migrations/a_first.sql"; py "backend/migrations/z_last.sql"])
    as [H1 [H2 H3]].
  - vm_compute. reflexivity.
  - split; [exact H1|]. split; [exact H2|].
    destruct H3 as [out [Hout [_ Hlines]]].
    + intros H. discriminate H.
    + compute_done.
    + exists out. split; [exact Hout|]. apply Hlines. compute_done.
Defined.

(** C6 as stated fails on [demo_unprintable]: the directory exists and
    every file can be read, yet [c_plain.sql], which lacks the marker, is
    nowhere on standard output, and [main] ends in an exception and not in
    an exit code. *)
Lemma C6_counterexample :
  present repo demo_unprintable /\
  (forall name, candidate repo demo_unprintable name -> ~ exempt name ->
     readable_entry repo demo_unprintable name) /\
  (candidate repo demo_unprintable (py "c_plain.sql") /\
   ~ exempt (py "c_plain.sql") /\
   undocumented repo demo_unprintable (py "c_plain.sql")) /\
  ~ occurs_in (py "c_plain.sql") (stdout (main repo demo_unprintable).2) /\
  (main repo demo_unprintable).1 = Raised UnicodeEncodeError.
Proof.
  split; [compute_done|]. split; [|split; [|split]].
  - refine (Forall_visited _ _ (fun name => ~ exempt name -> readable_entry _ _ name) _).
    compute_done.
  - split; [compute_done|]. split; compute_done.
  - apply str_in_false. vm_compute. reflexivity.
  - vm_compute. reflexivity.
Qed.

Lemma C6_all_reported_witness :
  exists failures,
    (scan repo [] demo_c).1 = Returned failures /\
    (forall name, candidate repo demo_c name -> ~ exempt name ->
       undocumented repo demo_c name -> rel_path_of name ∈ failures) /\
    (forall name, candidate repo demo_c name -> ~ exempt name ->
       OpReadText (MIGRATIONS_DIR repo // name) ∈ syscalls (main repo demo_c).2) /\
    (Forall printable failures ->
     (main repo demo_c).1 = Returned (match failures with [] => 0 | _ :: _ => 1 end)%Z /\
     exists out,
       stdout (main repo demo_c).2 = stdout demo_c ++ out /\
       forall name, candidate repo demo_c name -> ~ exempt name ->
         undocumented repo demo_c name ->
         printed_line out (py "  - " ++ rel_path_of name)).
Proof.
  apply (C6_all_reported repo demo_c).
  - compute_done.
  - refine (Forall_visited _ _ (fun name => ~ exempt name -> readable_entry _ _ name) _).
    compute_done.
Defined.

Lemma C7_read_error_aborts_witness :
  exists e' name',
    candidate repo clash name' /\ ~ exempt name' /\
    text_of repo clash name' = Raised e' /\
    (main repo clash).1 = Raised e' /\
    stdout (main repo clash).2 = stdout clash /\
    stderr (main repo clash).2 = stderr clash.
Proof.
  apply (C7_read_error_aborts repo clash (py "b_broken.sql") UnicodeDecodeError).
  - compute_done.
  - compute_done.
  - vm_compute. reflexivity.
Defined.

Lemma C9_deterministic_witness :
  (main repo demo_a).1 = (main repo demo_a_again).1 /\
  (scan repo [] demo_a).1 = (scan repo [] demo_a_again).1 /\
  exists out err,
    stdout (main repo demo_a).2 = stdout demo_a ++ out /\
    stdout (main repo demo_a_again).2 = stdout demo_a_again ++ out /\
    stderr (main repo demo_a).2 = stderr demo_a ++ err /\
    stderr (main repo demo_a_again).2 = stderr demo_a_again ++ err.
Proof.
  apply (proj1 (C9_deterministic repo demo_a demo_a_again)).
  right. eexists true, true, _, _. split; [vm_compute; reflexivity|].
  split; [vm_compute; reflexivity|].
  split; [compute_done | apply perm_swap].
Defined.

Lemma C10_silent_success_witness :
  (main repo demo_a).1 = Returned 0%Z /\
  stdout (main repo demo_a).2 = stdout demo_a /\
  stderr (main repo demo_a).2 = stderr demo_a.
Proof.
  apply (proj2 (C10_silent_success repo demo_a)).
  - compute_done.
  - vm_compute. reflexivity.
Defined.

(** ** Further properties of the script *)

Lemma filter_ext_in {A} (P Q : A -> Prop) `{forall x, Decision (P x)}
    `{forall x, Decision (Q x)} (l : list A) :
  (forall x, x ∈ l -> P x <-> Q x) -> filter P l = filter Q l.
Proof.
  induction l as [|a l IH]; intros Hext; [reflexivity|].
  rewrite !filter_cons.
  assert (Ha : P a <-> Q a) by (apply Hext; left).
  rewrite IH by (intros x Hx; apply Hext; right; exact Hx).
  destruct (decide (P a)) as [Hp|Hp]; destruct (decide (Q a)) as [Hq|Hq];
    first [reflexivity | exfalso; apply Ha in Hp; contradiction
          | exfalso; apply Ha in Hq; contradiction].
Qed.

(** The printing loop stops at the first failure that cannot be
    encoded, after the lines of the ones before it. *)
Lemma printed_stop (failures : list str) :
  ~ Forall printable failures ->
  exists shown f rest,
    failures = shown ++ f :: rest /\ Forall printable shown /\ ~ printable f /\
    printed failures = (Raised UnicodeEncodeError, unlines (app (py "  - ") <$> shown)).
Proof.
  induction failures as [|g fl IH]; intros Hn; [exfalso; apply Hn; constructor|].
  cbn [printed]. rewrite encodable_line.
  destruct (encodable g) eqn:E.
  - apply encodable_printable in E.
    destruct IH as [shown [f [rest [-> [Hs [Hf Hp]]]]]].
    { intros Hall. apply Hn. constructor; assumption. }
    exists (g :: shown), f, rest. split; [reflexivity|].
    split; [constructor; assumption|]. split; [exact Hf|].
    rewrite Hp. cbn [fst snd]. rewrite fmap_cons, unlines_cons. reflexivity.
  - exists [], g, fl. split; [reflexivity|]. split; [constructor|].
    split; [|reflexivity]. intros Hp. apply encodable_printable in Hp. congruence.
Qed.

(** X1.  [main] returns 1 exactly when [stat] finds nothing at the
    migrations path, or every non-exempt matched entry can be read, at
    least one of them lacks the marker and the names of all that lack it
    can be encoded on standard output; and it returns no other code than 0
    and 1. *)
Theorem X1_exit_code_one (R : Path) (w : world) :
  ((main R w).1 = Returned 1%Z <->
   absent R w \/
   ((forall name, candidate R w name -> ~ exempt name -> readable_entry R w name) /\
    (exists name, candidate R w name /\ ~ exempt name /\ undocumented R w name) /\
    (forall name, candidate R w name -> ~ exempt name -> undocumented R w name ->
       printable name))) /\
  (forall code, (main R w).1 = Returned code -> code = 0%Z \/ code = 1%Z).
Proof.
  destruct (main_cases R w)
    as [[Ha Hr] | [[Hd Hr] | [[Hp [fl [Hrun [Hread Hfl]]]] | [Hp [e [n [Hr [Hc [Hx Ht]]]]]]]]].
  - rewrite Hr. split; [split; auto|]. intros code [= <-]. auto.
  - rewrite Hr. split; [split|].
    + intros H. discriminate H.
    + intros [Ha | [_ [[name [Hc _]] _]]].
      * exfalso. exact (denied_not_absent R w Hd Ha).
      * exfalso. exact (denied_not_present R w Hd (candidate_is_present R w name Hc)).
    + intros code H. discriminate H.
  - pose proof (failures_elem R w fl) as Hel.
    destruct Hfl as [[Hnil Hr] | [[Hne [Hpr Hr]] | [Hne [Hnp Hr]]]]; rewrite Hr.
    + split; [split|].
      * intros H. discriminate H.
      * intros [Ha | [_ [[name [Hc [Hx Hu]]] _]]].
        -- exfalso. exact (absent_not_present R w Ha Hp).
        -- exfalso. assert (Hin : rel_path_of name ∈ fl).
           { apply (Hel _ Hrun). exists name. auto. }
           rewrite Hnil in Hin. inversion Hin.
      * intros code [= <-]. auto.
    + split; [split|].
      * intros _. right. split; [exact Hread|]. split.
        -- destruct fl as [|f fl']; [congruence|].
           assert (Hin : f ∈ f :: fl') by left.
           apply (Hel _ Hrun) in Hin. destruct Hin as [name [Hc [Hx [Hu _]]]]. eauto.
        -- apply (failures_printable R w fl Hrun). exact Hpr.
      * reflexivity.
      * intros code [= <-]. auto.
    + split; [split|].
      * intros H. discriminate H.
      * intros [Ha | [_ [_ Hall]]].
        -- exfalso. exact (absent_not_present R w Ha Hp).
        -- exfalso. apply Hnp. apply (failures_printable R w fl Hrun). exact Hall.
      * intros code H. discriminate H.
  - rewrite Hr. split; [split|].
    + intros H. discriminate H.
    + intros [Ha | [Hread _]].
      * exfalso. exact (absent_not_present R w Ha Hp).
      * destruct (Hread n Hc Hx) as [text Ht']. congruence.
    + intros code H. discriminate H.
Qed.

(** X2.  [main] raises exactly when the existence test is denied, or some
    non-exempt matched entry cannot be read, or some non-exempt matched
    entry lacks the marker and has a name that cannot be encoded.  What it
    raises is the [PermissionError] of the existence test, the error of
    the read of a non-exempt matched entry, or the [UnicodeEncodeError] of
    [print]; computing the relative path of a matched entry never fails,
    so the error is never the [ValueError] of [relative_to]. *)
Theorem X2_raises_iff (R : Path) (w : world) :
  ((exists e, (main R w).1 = Raised e) <->
   migrations R w = Raised PermissionError \/
   (exists name, candidate R w name /\ ~ exempt name /\ ~ readable_entry R w name) \/
   (exists name, candidate R w name /\ ~ exempt name /\ undocumented R w name /\
                 ~ printable name)) /\
  (forall e, (main R w).1 = Raised e ->
     ((e = PermissionError /\ migrations R w = Raised PermissionError) \/
      (exists name, candidate R w name /\ ~ exempt name /\ text_of R w name = Raised e) \/
      (e = UnicodeEncodeError /\
       exists name, candidate R w name /\ ~ exempt name /\ undocumented R w name /\
                    ~ printable name)) /\
     e <> ValueError).
Proof.
  destruct (main_cases R w)
    as [[Ha Hr] | [[Hd Hr] | [[Hp [fl [Hrun [Hread Hfl]]]] | [Hp [e [n [Hr [Hc [Hx Ht]]]]]]]]].
  - rewrite Hr. split; [split|].
    + intros [e H]. discriminate H.
    + intros [Hd | [[name [Hc _]] | [name [Hc _]]]]; exfalso.
      * exact (denied_not_absent R w Hd Ha).
      * exact (absent_not_present R w Ha (candidate_is_present R w name Hc)).
      * exact (absent_not_present R w Ha (candidate_is_present R w name Hc)).
    + intros e H. discriminate H.
  - rewrite Hr. split; [split|].
    + intros _. left. exact Hd.
    + intros _. eauto.
    + intros e [= <-]. split; [left; auto | intros H; discriminate H].
  - assert (Hbad : ~ Forall printable fl ->
              exists name, candidate R w name /\ ~ exempt name /\ undocumented R w name /\
                           ~ printable name).
    { intros Hnp. apply not_Forall_Exists in Hnp; [|apply _].
      apply Exists_exists in Hnp. destruct Hnp as [rel [Hin Hrel]].
      apply (failures_elem R w fl rel Hrun) in Hin.
      destruct Hin as [name [Hc [Hx [Hu ->]]]]. exists name.
      split; [exact Hc|]. split; [exact Hx|]. split; [exact Hu|].
      intros Hpn. apply Hrel. apply printable_rel_path. exact Hpn. }
    assert (Hgood : Forall printable fl ->
              ~ exists name, candidate R w name /\ ~ exempt name /\ undocumented R w name /\
                             ~ printable name).
    { intros Hpr [name [Hc [Hx [Hu Hnp]]]]. apply Hnp.
      apply (proj1 (failures_printable R w fl Hrun) Hpr); assumption. }
    assert (Hnodeny : migrations R w <> Raised PermissionError).
    { intros Hd. exact (denied_not_present R w Hd Hp). }
    assert (Hnoread : ~ exists name, candidate R w name /\ ~ exempt name /\
                                     ~ readable_entry R w name).
    { intros [name [Hc [Hx Hno]]]. apply Hno. apply Hread; assumption. }
    destruct Hfl as [[Hnil Hr] | [[Hne [Hpr Hr]] | [Hne [Hnp Hr]]]]; rewrite Hr.
    + split; [split|].
      * intros [e H]. discriminate H.
      * intros [Hd | [Hno | Hun]]; exfalso; [exact (Hnodeny Hd) | exact (Hnoread Hno) |].
        apply (Hgood ltac:(rewrite Hnil; constructor)). exact Hun.
      * intros e H. discriminate H.
    + split; [split|].
      * intros [e H]. discriminate H.
      * intros [Hd | [Hno | Hun]]; exfalso;
          [exact (Hnodeny Hd) | exact (Hnoread Hno) | exact (Hgood Hpr Hun)].
      * intros e H. discriminate H.
    + split; [split|].
      * intros _. right. right. exact (Hbad Hnp).
      * intros _. eauto.
      * intros e [= <-]. split; [|intros H; discriminate H].
        right. right. split; [reflexivity | exact (Hbad Hnp)].
  - rewrite Hr. split; [split|].
    + intros _. right. left. exists n. split; [exact Hc|]. split; [exact Hx|].
      intros [text Ht']. congruence.
    + intros _. eauto.
    + intros e' [= <-]. split; [right; left; eauto|].
      destruct (text_of_candidate R w n e Hc Ht) as [He|[He|[He|He]]];
        rewrite He; intros Hv; discriminate Hv.
Qed.

(** X3.  The scan stops at the first read that fails: when [name] is the
    least non-exempt matched entry, in code-point order, that cannot be
    read, [main] raises the error of that very read; the non-exempt
    matched entries up to [name] have been read and no entry that sorts
    after [name] is ever read. *)
Theorem X3_first_failure (R : Path) (w : world) (name : str) (e : exn) :
  candidate R w name -> ~ exempt name -> text_of R w name = Raised e ->
  (forall n, candidate R w n -> ~ exempt n -> str_le n name -> n <> name ->
     readable_entry R w n) ->
  (main R w).1 = Raised e /\
  (forall n, candidate R w n -> ~ exempt n -> str_le n name ->
     OpReadText (MIGRATIONS_DIR R // n) ∈ syscalls (main R w).2) /\
  exists ops,
    syscalls (main R w).2 = syscalls w ++ ops /\
    forall n, ~ str_le n name -> OpReadText (MIGRATIONS_DIR R // n) ∉ ops.
Proof.
  intros Hc Hx Ht Hbefore.
  destruct (candidate_is_present R w name Hc) as [d Hd].
  assert (Hv : verdict_of R (fs w) name = Aborted e) by (apply verdict_Aborted; auto).
  destruct (run_first_abort R (fs w) name e (visited R (fs w)) []) as [H1 [H2 H3]].
  - apply visited_sorted.
  - apply elem_of_visited. exact Hc.
  - exact Hv.
  - intros n Hn Hle Hne e' He'. apply elem_of_visited in Hn.
    pose proof He' as He''. apply verdict_Aborted in He''. destruct He'' as [Hxn _].
    eapply verdict_readable; eauto.
  - split; [|split].
    + rewrite main_outcome, Hd, H1. reflexivity.
    + intros n Hn Hxn Hle. rewrite main_syscalls_eq, Hd.
      apply elem_of_app. right. apply elem_of_app. right. apply H3.
      * apply elem_of_visited. exact Hn.
      * exact Hle.
      * intros Hsk. apply verdict_Skipped in Hsk. contradiction.
    + eexists. split; [apply main_syscalls_eq|]. rewrite Hd.
      intros n Hnle Hin.
      apply elem_of_app in Hin. destruct Hin as [Hin|Hin].
      * apply elem_of_cons in Hin. destruct Hin as [Hin|Hin]; [congruence|].
        apply list_elem_of_singleton in Hin. congruence.
      * destruct (H2 _ Hin) as [n' [_ [Hle [_ Heq]]]].
        injection Heq as Heq. apply truediv_inj in Heq. subst n'. contradiction.
Qed.

(** X4.  On a run that reads every non-exempt matched entry successfully,
    the filesystem accesses are, in this order: one existence test, one
    scan of the migrations directory, then one read per non-exempt matched
    entry, in ascending code-point order of the names. *)
Theorem X4_access_sequence (R : Path) (w : world) :
  present R w ->
  (forall name, candidate R w name -> ~ exempt name -> readable_entry R w name) ->
  exists names,
    syscalls (main R w).2 =
      syscalls w ++
      OpExists (MIGRATIONS_DIR R) :: OpScandir (MIGRATIONS_DIR R) ::
      ((fun n => OpReadText (MIGRATIONS_DIR R // n)) <$> names) /\
    StronglySorted str_le names /\
    names ≡ₚ filter (fun n => candidate R w n /\ ~ exempt n) (scandir (migrations R w)).
Proof.
  intros [d Hd] Hread.
  pose proof (readable_no_abort R w Hread) as Hna.
  exists (filter (fun n => ~ exempt n) (visited R (fs w))). split; [|split].
  - rewrite main_syscalls_eq, Hd.
    rewrite (run_reads_complete R (fs w) _ Hna). reflexivity.
  - apply StronglySorted_filter. apply visited_sorted.
  - unfold visited. rewrite merge_sort_Permutation. fold (migrations R w).
    rewrite list_filter_filter. apply reflexive_eq. apply filter_ext_in.
    intros n Hn. unfold candidate. rewrite endswith_suffix.
    split; [intros [H1 H2] | intros [[_ H1] H2]]; auto.
Qed.

(** X5.  Whatever the tree, [main] touches the filesystem only through the
    existence test and the scan of the migrations directory and through
    reads of non-exempt entries that the glob matched directly under it. *)
Theorem X5_accesses_confined (R : Path) (w : world) :
  exists ops,
    syscalls (main R w).2 = syscalls w ++ ops /\
    forall op, op ∈ ops ->
      op = OpExists (MIGRATIONS_DIR R) \/
      op = OpScandir (MIGRATIONS_DIR R) \/
      exists name, candidate R w name /\ ~ exempt name /\
                   op = OpReadText (MIGRATIONS_DIR R // name).
Proof.
  eexists. split; [apply main_syscalls_eq|].
  destruct (migrations R w).
  - intros op Hop. apply elem_of_app in Hop. destruct Hop as [Hop|Hop].
    + apply elem_of_cons in Hop. destruct Hop as [->|Hop]; [auto|].
      apply list_elem_of_singleton in Hop. auto.
    + right. right. apply run_reads_elem in Hop.
      destruct Hop as [name [Hin [Hv Heq]]]. exists name.
      split; [apply elem_of_visited; exact Hin|]. split; [|exact Heq].
      intros Hx. apply Hv. apply verdict_Skipped. exact Hx.
  - intros op Hop. apply list_elem_of_singleton in Hop. auto.
Qed.

(** X6.  A run depends on the migrations directory only through the names
    it enumerates and the texts of its non-exempt matched entries: two
    worlds that agree on those give the same outcome, the same text on
    both streams and the same filesystem accesses, whatever the exempt
    entries, the unmatched entries and the subdirectories hold. *)
Theorem X6_depends_on_texts (R : Path) (w1 w2 : world) :
  scandir (migrations R w1) = scandir (migrations R w2) ->
  (forall e, migrations R w1 = Raised e <-> migrations R w2 = Raised e) ->
  (forall name, candidate R w1 name -> ~ exempt name ->
     text_of R w1 name = text_of R w2 name) ->
  (main R w1).1 = (main R w2).1 /\
  exists out err ops,
    stdout (main R w1).2 = stdout w1 ++ out /\
    stdout (main R w2).2 = stdout w2 ++ out /\
    stderr (main R w1).2 = stderr w1 ++ err /\
    stderr (main R w2).2 = stderr w2 ++ err /\
    syscalls (main R w1).2 = syscalls w1 ++ ops /\
    syscalls (main R w2).2 = syscalls w2 ++ ops.
Proof.
  intros Hscan Hpres Htext.
  assert (Hvis : visited R (fs w1) = visited R (fs w2)).
  { unfold visited. unfold migrations in Hscan. rewrite Hscan. reflexivity. }
  assert (Hverd : forall n, n ∈ visited R (fs w1) ->
            verdict_of R (fs w1) n = verdict_of R (fs w2) n).
  { intros n Hn. apply elem_of_visited in Hn. unfold verdict_of.
    destruct (decide (exempt n)) as [Hx|Hx]; [reflexivity|].
    rewrite <- !text_of_entry_text, (Htext n Hn Hx). reflexivity. }
  assert (Hrun : run_of_tree R (fs w1) = run_of_tree R (fs w2)).
  { apply run_of_tree_congr; [exact Hpres | exact Hvis | exact Hverd]. }
  split.
  - rewrite !main_eq, Hrun. destruct (run_of_tree R (fs w2)) as [[[r out] err] ops].
    reflexivity.
  - exists (run_of_tree R (fs w1)).1.1.2, (run_of_tree R (fs w1)).1.2, (run_of_tree R (fs w1)).2.
    rewrite !main_stdout, !main_stderr, !main_syscalls, Hrun. auto 7.
Qed.

(** X7.  The verdict does not depend on where the checkout lives: runs
    from two checkout roots whose migrations paths resolve to the same
    node give the same outcome, the same failure list and the same text
    on standard output. *)
Theorem X7_relocation (R1 R2 : Path) (w1 w2 : world) :
  migrations R1 w1 = migrations R2 w2 ->
  (main R1 w1).1 = (main R2 w2).1 /\
  (scan R1 [] w1).1 = (scan R2 [] w2).1 /\
  exists out,
    stdout (main R1 w1).2 = stdout w1 ++ out /\
    stdout (main R2 w2).2 = stdout w2 ++ out.
Proof.
  intros Hm.
  assert (Hvis : visited R1 (fs w1) = visited R2 (fs w2)).
  { unfold visited. unfold migrations in Hm. rewrite Hm. reflexivity. }
  assert (Hverd : forall n, verdict_of R1 (fs w1) n = verdict_of R2 (fs w2) n).
  { intros n. unfold verdict_of. rewrite !entry_text_found.
    unfold migrations in Hm. rewrite Hm. reflexivity. }
  assert (Hrun : run_result R1 (fs w1) (visited R1 (fs w1)) [] =
                 run_result R2 (fs w2) (visited R2 (fs w2)) []).
  { rewrite <- Hvis. apply run_result_congr. intros n _. apply Hverd. }
  split; [|split].
  - rewrite !main_outcome, Hm, Hrun. reflexivity.
  - rewrite !scan_outcome, Hm, Hrun. reflexivity.
  - eexists. split; [apply main_stdout_eq|].
    rewrite main_stdout_eq, Hm, Hrun. reflexivity.
Qed.

(** X8.  When the scan ends with a failure list that is not empty and
    every path in it can be encoded, [main] returns 1, standard error
    receives exactly the closing advice and a line feed, and standard
    output receives the report; when no path holds a line feed the report
    is one line more than there are failures. *)
Theorem X8_failure_report (R : Path) (w : world) (failures : list str) :
  (scan R [] w).1 = Returned failures -> failures <> [] -> Forall printable failures ->
  (main R w).1 = Returned 1%Z /\
  stderr (main R w).2 =
    stderr w ++
    py "Add rollback notes or update the allowlist once legacy files are documented."
    ++ [LF] /\
  stdout (main R w).2 = stdout w ++ unlines (report failures) /\
  (Forall (fun f => LF ∉ f) failures ->
   length (lines_of (unlines (report failures))) = S (length failures)).
Proof.
  intros Hscan Hne Hpr. pose proof (scan_Returned R _ _ _ Hscan) as Hrun.
  assert (Hp : present R w).
  { unfold present. destruct (migrations R w) as [d|e] eqn:Hd; [eauto|].
    exfalso. apply Hne. rewrite (visited_absent R w e Hd) in Hrun.
    simpl in Hrun. congruence. }
  destruct Hp as [d Hd].
  split; [|split; [|split]].
  - rewrite main_outcome, Hd, Hrun. destruct failures as [|f fl]; [congruence|].
    rewrite (printed_printable _ Hpr). reflexivity.
  - rewrite main_stderr_eq, Hd, Hrun. destruct failures as [|f fl]; [congruence|].
    rewrite (printed_printable _ Hpr). reflexivity.
  - apply main_stdout_report; assumption.
  - intros Hlf. rewrite (lines_of_unlines _ (report_no_LF _ Hlf)).
    unfold report. cbn [length]. rewrite length_fmap. reflexivity.
Qed.

(** X9.  When the directory enumerates no name twice, no relative path is
    listed twice, and there are at most as many failures as entries. *)
Theorem X9_no_duplicates (R : Path) (w : world) (failures : list str) :
  NoDup (scandir (migrations R w)) ->
  (scan R [] w).1 = Returned failures ->
  NoDup failures /\ length failures <= length (scandir (migrations R w)).
Proof.
  intros Hnd Hscan. pose proof (scan_Returned R _ _ _ Hscan) as Hrun.
  pose proof (run_result_Returned _ _ _ _ _ Hrun) as Hna.
  rewrite (run_result_no_abort _ _ _ _ Hna) in Hrun. simpl in Hrun.
  injection Hrun as <-.
  assert (Hperm : visited R (fs w) ≡ₚ
            filter (fun n => endswith n (py ".sql") = true) (scandir (migrations R w))).
  { unfold visited, migrations. apply merge_sort_Permutation. }
  split.
  - apply (NoDup_fmap_2 rel_path_of). apply NoDup_filter.
    rewrite Hperm. apply NoDup_filter. exact Hnd.
  - rewrite length_fmap.
    etransitivity; [apply length_filter|]. rewrite Hperm. apply length_filter.
Qed.

(** X10.  When something is at the migrations path and every matched
    entry is exempt (in particular when nothing is matched: an empty
    directory, no [*.sql] name, a directory that may not be listed, or a
    regular file at the path), [main] returns 0 after the existence test
    and the scan alone: no file is read and nothing is printed. *)
Theorem X10_nothing_to_check (R : Path) (w : world) :
  present R w ->
  (forall name, candidate R w name -> exempt name) ->
  main R w =
  (Returned 0%Z,
   World (fs w) (stdout w) (stderr w)
     (syscalls w ++ [OpExists (MIGRATIONS_DIR R); OpScandir (MIGRATIONS_DIR R)])).
Proof.
  intros [d Hd] Hall.
  destruct (run_all_skipped R (fs w) (visited R (fs w)) []) as [Hres Hreads].
  { intros n Hn. apply Hall. apply elem_of_visited. exact Hn. }
  rewrite main_eq. unfold run_of_tree. unfold migrations in Hd.
  rewrite Hd, Hres, Hreads. rewrite !app_nil_r. reflexivity.
Qed.

(** X11.  The exit status of the process is 0 exactly when something is at
    the migrations path and every non-exempt matched entry can be read as
    text that holds the marker; in every other case, an exception
    included, it is 1. *)
Theorem X11_process_status (R : Path) (w : world) :
  (entry_point R w = 0%Z <->
   present R w /\
   forall name, candidate R w name -> ~ exempt name -> documented R w name) /\
  (entry_point R w = 0%Z \/ entry_point R w = 1%Z).
Proof.
  unfold entry_point.
  destruct (main_cases R w)
    as [[Ha Hr] | [[Hd Hr] | [[Hp [fl [Hrun [Hread Hfl]]]] | [Hp [e [n [Hr [Hc [Hx Ht]]]]]]]]].
  - rewrite Hr. cbn [sys_exit]. split; [|auto]. split; [intros H; discriminate H|].
    intros [Hp _]. exfalso. exact (absent_not_present R w Ha Hp).
  - rewrite Hr. cbn [sys_exit]. split; [|auto]. split; [intros H; discriminate H|].
    intros [Hp _]. exfalso. exact (denied_not_present R w Hd Hp).
  - pose proof (failures_elem R w fl) as Hel.
    assert (Hcontra : fl <> [] ->
              ~ (forall name, candidate R w name -> ~ exempt name -> documented R w name)).
    { intros Hne Hall. destruct fl as [|f fl']; [congruence|].
      assert (Hin : f ∈ f :: fl') by left.
      apply (Hel _ Hrun) in Hin. destruct Hin as [name [Hc [Hx [Hu _]]]].
      exact (documented_not_undocumented R w name (Hall name Hc Hx) Hu). }
    destruct Hfl as [[Hnil Hr] | [[Hne [Hpr Hr]] | [Hne [Hnp Hr]]]];
      rewrite Hr; cbn [sys_exit].
    + split; [|auto]. split; [|reflexivity]. intros _. split; [exact Hp|].
      intros name Hc Hx.
      destruct (readable_cases R w name (Hread name Hc Hx)) as [Hdoc|Hu]; [exact Hdoc|].
      exfalso. assert (Hin : rel_path_of name ∈ fl).
      { apply (Hel _ Hrun). exists name. auto. }
      rewrite Hnil in Hin. inversion Hin.
    + split; [|auto]. split; [intros H; discriminate H|].
      intros [_ Hall]. exfalso. exact (Hcontra Hne Hall).
    + split; [|auto]. split; [intros H; discriminate H|].
      intros [_ Hall]. exfalso. exact (Hcontra Hne Hall).
  - rewrite Hr. cbn [sys_exit]. split; [|auto]. split; [intros H; discriminate H|].
    intros [_ Hall]. destruct (Hall n Hc Hx) as [text [Ht' _]]. congruence.
Qed.

(** X12.  Nothing is reported without cause: when no non-exempt matched
    entry that lacks the marker has a line feed in its name, every line
    [main] writes on standard output is the header or the indented
    relative path of a non-exempt matched entry whose text lacks the
    marker. *)
Theorem X12_report_sound (R : Path) (w : world) :
  (forall name, candidate R w name -> ~ exempt name -> undocumented R w name ->
     LF ∉ name) ->
  exists out,
    stdout (main R w).2 = stdout w ++ out /\
    forall line, line ∈ lines_of out ->
      line = py "The following migrations are missing a '-- Rollback:' guidance block:" \/
      exists name, candidate R w name /\ ~ exempt name /\ undocumented R w name /\
                   line = py "  - " ++ rel_path_of name.
Proof.
  intros Hlf. eexists. split; [apply main_stdout_eq|].
  destruct (migrations R w) as [d|e]; [|intros line Hin; inversion Hin].
  destruct (run_result R (fs w) (visited R (fs w)) []) as [[|f fl]|e] eqn:Hrun;
    try (intros line Hin; inversion Hin; fail).
  destruct (printed_prefix (f :: fl)) as [shown [Hpre Hshown]]. rewrite Hshown.
  pose proof (failures_no_LF R w _ Hrun Hlf) as Hno.
  assert (Hsub : forall rel, rel ∈ shown -> rel ∈ f :: fl).
  { intros rel Hrel. destruct Hpre as [rest ->]. apply elem_of_app. auto. }
  assert (Hno' : Forall (fun g => LF ∉ g) shown).
  { rewrite Forall_forall in *. intros rel Hrel. apply Hno, Hsub, Hrel. }
  rewrite <- unlines_cons. change (_ :: (app (py "  - ") <$> shown)) with (report shown).
  rewrite (lines_of_unlines _ (report_no_LF _ Hno')).
  intros line Hin. unfold report in Hin. apply elem_of_cons in Hin.
  destruct Hin as [->|Hin]; [left; reflexivity|].
  right. apply list_elem_of_fmap in Hin. destruct Hin as [rel [-> Hrel]].
  apply Hsub in Hrel. apply (failures_elem R w _ _ Hrun) in Hrel.
  destruct Hrel as [name [Hc [Hx [Hu ->]]]]. exists name. auto.
Qed.

(** X13.  The loop only ever appends: for any list of paths, inside the
    checkout or not, it leaves the tree and both streams as they are, and
    when it returns, its result starts with the failures it was given and
    is longer by at most one entry per path. *)
Theorem X13_loop_appends (R : Path) (paths : list Path) (failures : list str) (w : world) :
  fs (for_paths R paths failures w).2 = fs w /\
  stdout (for_paths R paths failures w).2 = stdout w /\
  stderr (for_paths R paths failures w).2 = stderr w /\
  forall failures', (for_paths R paths failures w).1 = Returned failures' ->
    failures `prefix_of` failures' /\
    length failures' <= length failures + length paths.
Proof.
  revert failures w. induction paths as [|path rest IH]; intros failures w.
  - cbn [for_paths]. unfold ret. cbn [fst snd].
    split; [reflexivity|]. split; [reflexivity|]. split; [reflexivity|].
    intros fl' [= <-]. split; [reflexivity | simpl; lia].
  - cbn [for_paths]. unfold bind.
    destruct (loop_body_step R path failures w) as [Hfs [Hout [Herr Hres]]].
    destruct (loop_body R path failures w) as [[fl1|e] w1]; cbn [fst snd] in *.
    + destruct (IH fl1 w1) as [Hfs' [Hout' [Herr' Hres']]].
      split; [congruence|]. split; [congruence|]. split; [congruence|].
      intros fl' Hfl'. destruct (Hres' fl' Hfl') as [Hpre Hlen].
      destruct (Hres fl1 eq_refl) as [->|[rel ->]].
      * split; [exact Hpre | simpl; lia].
      * split.
        -- etransitivity; [|exact Hpre]. apply prefix_app_r. reflexivity.
        -- rewrite length_app in Hlen. simpl in *. lia.
    + split; [exact Hfs|]. split; [exact Hout|]. split; [exact Herr|].
      intros fl' H. discriminate H.
Qed.

(** X14.  When the scan ends with a failure list holding a path that
    cannot be encoded on standard output, [main] raises
    [UnicodeEncodeError]: standard output holds the header and the lines
    of the failures before the first such path, the closing advice is
    never written and no exit code is returned. *)
Theorem X14_report_interrupted (R : Path) (w : world) (failures : list str) :
  (scan R [] w).1 = Returned failures -> ~ Forall printable failures ->
  (main R w).1 = Raised UnicodeEncodeError /\
  stderr (main R w).2 = stderr w /\
  exists shown f rest,
    failures = shown ++ f :: rest /\ Forall printable shown /\ ~ printable f /\
    stdout (main R w).2 = stdout w ++ unlines (report shown).
Proof.
  intros Hscan Hnp. pose proof (scan_Returned R _ _ _ Hscan) as Hrun.
  destruct (printed_stop failures Hnp) as [shown [f [rest [Heq [Hs [Hf Hp]]]]]].
  assert (Hne : failures <> []) by (rewrite Heq; destruct shown; discriminate).
  assert (Hpres : present R w).
  { unfold present. destruct (migrations R w) as [d|e] eqn:Hd; [eauto|].
    exfalso. apply Hne. rewrite (visited_absent R w e Hd) in Hrun.
    simpl in Hrun. congruence. }
  destruct Hpres as [d Hd].
  rewrite main_outcome, main_stderr_eq, main_stdout_eq, Hd, Hrun.
  destruct failures as [|g fl]; [congruence|]. rewrite Hp. cbn [fst snd].
  split; [reflexivity|]. split; [rewrite app_nil_r; reflexivity|].
  exists shown, f, rest. split; [exact Heq|]. split; [exact Hs|]. split; [exact Hf|].
  unfold report. rewrite unlines_cons. reflexivity.
Qed.

(** ** The further properties at concrete trees *)

Lemma X1_exit_code_one_witness : (main repo demo_c).1 = Returned 1%Z.
Proof.
  apply (proj2 (proj1 (X1_exit_code_one repo demo_c))). right. split; [|split].
  - refine (Forall_visited _ _ (fun name => ~ exempt name -> readable_entry _ _ name) _).
    compute_done.
  - exists (py "a_first.sql"). split; [compute_done|]. split; compute_done.
  - refine (Forall_visited _ _
              (fun name => ~ exempt name -> undocumented _ _ name -> printable name) _).
    compute_done.
Defined.

Lemma X2_raises_iff_witness :
  (exists e, (main repo demo_denied).1 = Raised e) /\
  (exists e, (main repo demo_abort_order).1 = Raised e) /\
  (exists e, (main repo demo_unprintable).1 = Raised e).
Proof.
  split; [|split].
  - apply (proj2 (proj1 (X2_raises_iff repo demo_denied))). left.
    vm_compute. reflexivity.
  - apply (proj2 (proj1 (X2_raises_iff repo demo_abort_order))). right. left.
    exists (py "c_binary.sql"). split; [compute_done|]. split; compute_done.
  - apply (proj2 (proj1 (X2_raises_iff repo demo_unprintable))). right. right.
    exists (py "b_" ++ [56448%N] ++ py ".sql").
    split; [compute_done|]. split; [compute_done|]. split; compute_done.
Defined.

Lemma X3_first_failure_witness :
  (main repo demo_abort_order).1 = Raised PermissionError /\
  (main repo demo_code_point_abort).1 = Raised PermissionError.
Proof.
  split.
  - apply (X3_first_failure repo demo_abort_order (py "b_locked.sql") PermissionError).
    + compute_done.
    + compute_done.
    + vm_compute. reflexivity.
    + refine (Forall_visited _ _
                (fun n => ~ exempt n -> str_le n (py "b_locked.sql") ->
                          n <> py "b_locked.sql" -> readable_entry _ _ n) _).
      compute_done.
  - apply (X3_first_failure repo demo_code_point_abort ([233%N] ++ py ".sql") PermissionError).
    + compute_done.
    + compute_done.
    + vm_compute. reflexivity.
    + refine (Forall_visited _ _
                (fun n => ~ exempt n -> str_le n ([233%N] ++ py ".sql") ->
                          n <> [233%N] ++ py ".sql" -> readable_entry _ _ n) _).
      compute_done.
Defined.

Lemma X4_access_sequence_witness :
  exists names,
    syscalls (main repo demo_code_points).2 =
      syscalls demo_code_points ++
      OpExists (MIGRATIONS_DIR repo) :: OpScandir (MIGRATIONS_DIR repo) ::
      ((fun n => OpReadText (MIGRATIONS_DIR repo // n)) <$> names) /\
    StronglySorted str_le names /\
    names ≡ₚ filter (fun n => candidate repo demo_code_points n /\ ~ exempt n)
               (scandir (migrations repo demo_code_points)).
Proof.
  apply (X4_access_sequence repo demo_code_points).
  - compute_done.
  - refine (Forall_visited _ _ (fun name => ~ exempt name -> readable_entry _ _ name) _).
    compute_done.
Defined.

Lemma X5_accesses_confined_witness :
  exists ops,
    syscalls (main repo demo_nested).2 = syscalls demo_nested ++ ops /\
    forall op, op ∈ ops ->
      op = OpExists (MIGRATIONS_DIR repo) \/
      op = OpScandir (MIGRATIONS_DIR repo) \/
      exists name, candidate repo demo_nested name /\ ~ exempt name /\
                   op = OpReadText (MIGRATIONS_DIR repo // name).
Proof. exact (X5_accesses_confined repo demo_nested). Defined.

Lemma X6_depends_on_texts_witness :
  (main repo demo_nested).1 = (main repo demo_nested_other).1 /\
  exists out err ops,
    stdout (main repo demo_nested).2 = stdout demo_nested ++ out /\
    stdout (main repo demo_nested_other).2 = stdout demo_nested_other ++ out /\
    stderr (main repo demo_nested).2 = stderr demo_nested ++ err /\
    stderr (main repo demo_nested_other).2 = stderr demo_nested_other ++ err /\
    syscalls (main repo demo_nested).2 = syscalls demo_nested ++ ops /\
    syscalls (main repo demo_nested_other).2 = syscalls demo_nested_other ++ ops.
Proof.
  apply (X6_depends_on_texts repo demo_nested demo_nested_other).
  - vm_compute. reflexivity.
  - intros e. split; intros H; vm_compute in H; discriminate H.
  - refine (Forall_visited _ _
              (fun name => ~ exempt name ->
                 text_of repo demo_nested name = text_of repo demo_nested_other name) _).
    compute_done.
Defined.

Lemma X7_relocation_witness :
  (main repo demo_c).1 = (main [py "srv"; py "ci"] demo_c_moved).1 /\
  (scan repo [] demo_c).1 = (scan [py "srv"; py "ci"] [] demo_c_moved).1 /\
  exists out,
    stdout (main repo demo_c).2 = stdout demo_c ++ out /\
    stdout (main [py "srv"; py "ci"] demo_c_moved).2 = stdout demo_c_moved ++ out.
Proof.
  apply (X7_relocation repo [py "srv"; py "ci"] demo_c demo_c_moved).
  vm_compute. reflexivity.
Defined.

Lemma X8_failure_report_witness :
  (main repo demo_b).1 = Returned 1%Z /\
  stderr (main repo demo_b).2 =
    stderr demo_b ++
    py "Add rollback notes or update the allowlist once legacy files are documented."
    ++ [LF] /\
  stdout (main repo demo_b).2 =
    stdout demo_b ++ unlines (report [py "backend/migrations/bad_migration.sql"]) /\
  (Forall (fun f => LF ∉ f) [py "backend/migrations/bad_migration.sql"] ->
   length (lines_of (unlines (report [py "backend/migrations/bad_migration.sql"]))) =
   S (length [py "backend/migrations/bad_migration.sql"])).
Proof.
  apply (X8_failure_report repo demo_b [py "backend/migrations/bad_migration.sql"]).
  - vm_compute. reflexivity.
  - intros H. discriminate H.
  - compute_done.
Defined.

Lemma X9_no_duplicates_witness :
  NoDup [py "backend/migrations/a_first.sql"; py "backend/migrations/z_last.sql"] /\
  length [py "backend/migrations/a_first.sql"; py "backend/migrations/z_last.sql"] <=
    length (scandir (migrations repo demo_c)).
Proof.
  apply (X9_no_duplicates repo demo_c).
  - compute_done.
  - vm_compute. reflexivity.
Defined.

Lemma X10_nothing_to_check_witness :
  main repo demo_file_at_path =
  (Returned 0%Z,
   World (fs demo_file_at_path) (stdout demo_file_at_path) (stderr demo_file_at_path)
     (syscalls demo_file_at_path ++
      [OpExists (MIGRATIONS_DIR repo); OpScandir (MIGRATIONS_DIR repo)])) /\
  main repo demo_unlistable =
  (Returned 0%Z,
   World (fs demo_unlistable) (stdout demo_unlistable) (stderr demo_unlistable)
     (syscalls demo_unlistable ++
      [OpExists (MIGRATIONS_DIR repo); OpScandir (MIGRATIONS_DIR repo)])).
Proof.
  split.
  - apply (X10_nothing_to_check repo demo_file_at_path).
    + compute_done.
    + refine (Forall_visited _ _ exempt _). compute_done.
  - apply (X10_nothing_to_check repo demo_unlistable).
    + compute_done.
    + refine (Forall_visited _ _ exempt _). compute_done.
Defined.

Lemma X11_process_status_witness : entry_point repo demo_a = 0%Z.
Proof.
  apply (proj2 (proj1 (X11_process_status repo demo_a))). split; [compute_done|].
  refine (Forall_visited _ _ (fun name => ~ exempt name -> documented _ _ name) _).
  compute_done.
Defined.

Lemma X12_report_sound_witness :
  exists out,
    stdout (main repo demo_c).2 = stdout demo_c ++ out /\
    forall line, line ∈ lines_of out ->
      line = py "The following migrations are missing a '-- Rollback:' guidance block:" \/
      exists name, candidate repo demo_c name /\ ~ exempt name /\
                   undocumented repo demo_c name /\
                   line = py "  - " ++ rel_path_of name.
Proof.
  apply (X12_report_sound repo demo_c).
  refine (Forall_visited _ _
            (fun name => ~ exempt name -> undocumented _ _ name -> LF ∉ name) _).
  compute_done.
Defined.

Lemma X13_loop_appends_witness :
  let paths := [MIGRATIONS_DIR repo // py "z_last.sql"; [py "elsewhere"; py "x.sql"]] in
  fs (for_paths repo paths [py "kept"] demo_c).2 = fs demo_c /\
  stdout (for_paths repo paths [py "kept"] demo_c).2 = stdout demo_c /\
  stderr (for_paths repo paths [py "kept"] demo_c).2 = stderr demo_c /\
  forall failures', (for_paths repo paths [py "kept"] demo_c).1 = Returned failures' ->
    [py "kept"] `prefix_of` failures' /\
    length failures' <= length [py "kept"] + length paths.
Proof.
  exact (X13_loop_appends repo
           [MIGRATIONS_DIR repo // py "z_last.sql"; [py "elsewhere"; py "x.sql"]]
           [py "kept"] demo_c).
Defined.

Lemma X14_report_interrupted_witness :
  (main repo demo_code_points).1 = Raised UnicodeEncodeError /\
  stderr (main repo demo_code_points).2 = stderr demo_code_points /\
  exists shown f rest,
    [py "backend/migrations/z.sql";
     py "backend/migrations/" ++ [233%N] ++ py ".sql";
     py "backend/migrations/" ++ [56448%N] ++ py ".sql"] = shown ++ f :: rest /\
    Forall printable shown /\ ~ printable f /\
    stdout (main repo demo_code_points).2 =
      stdout demo_code_points ++ unlines (report shown).
Proof.
  apply (X14_report_interrupted repo demo_code_points).
  - vm_compute. reflexivity.
  - compute_done.
Defined.

(** ** The scenarios of the specification *)

(** An exempt file without the marker and a documented new file: exit 0,
    nothing printed, the exempt file never read. *)
Example scenario_a :
  main repo demo_a =
  (Returned 0%Z,
   World (fs demo_a) [] []
     [OpExists [py "repo"; py "backend"; py "migrations"];
      OpScandir [py "repo"; py "backend"; py "migrations"];
      OpReadText [py "repo"; py "backend"; py "migrations"; py "new_feature.sql"]]).
Proof. vm_compute. reflexivity. Qed.

(** One undocumented file: exit 1 and its relative path on standard
    output. *)
Example scenario_b :
  (main repo demo_b).1 = Returned 1%Z /\
  lines_of (stdout (main repo demo_b).2) =
    [py "The following migrations are missing a '-- Rollback:' guidance block:";
     py "  - backend/migrations/bad_migration.sql"] /\
  lines_of (stderr (main repo demo_b).2) =
    [py "Add rollback notes or update the allowlist once legacy files are documented."].
Proof. vm_compute. auto. Qed.

(** Two undocumented files enumerated in descending order, a file that is
    not [*.sql] and a documented one: exit 1, both paths in ascending
    order.  The marker in lower case does not count. *)
Example scenario_c :
  (main repo demo_c).1 = Returned 1%Z /\
  lines_of (stdout (main repo demo_c).2) =
    [py "The following migrations are missing a '-- Rollback:' guidance block:";
     py "  - backend/migrations/a_first.sql";
     py "  - backend/migrations/z_last.sql"].
Proof. vm_compute. auto. Qed.

(** The glob does not descend into subdirectories, and an exempt entry may
    hold bytes that are not text. *)
Example scenario_nested :
  (main repo demo_nested).1 = Returned 0%Z /\
  syscalls (main repo demo_nested).2 =
    [OpExists [py "repo"; py "backend"; py "migrations"];
     OpScandir [py "repo"; py "backend"; py "migrations"];
     OpReadText [py "repo"; py "backend"; py "migrations"; py "ok.sql"]].
Proof. vm_compute. auto. Qed.

(** A read that fails after a failure was recorded: the run raises and the
    recorded failure is never printed. *)
Example scenario_clash :
  main repo clash =
  (Raised UnicodeDecodeError,
   World (fs clash) [] []
     [OpExists [py "repo"; py "backend"; py "migrations"];
      OpScandir [py "repo"; py "backend"; py "migrations"];
      OpReadText [py "repo"; py "backend"; py "migrations"; py "a_plain.sql"];
      OpReadText [py "repo"; py "backend"; py "migrations"; py "b_broken.sql"]]).
Proof. vm_compute. reflexivity. Qed.

(** The marker is the twelve characters of the source, matched
    literally. *)
Example marker_literal :
  py ".sql" = [46; 115; 113; 108]%N /\
  py "backend/migrations/" ++ py "x.sql" = py "backend/migrations/x.sql" /\
  str_in (py "-- Rollback:") (py "x; -- Rollback: drop table x;") = true /\
  str_in (py "-- Rollback:") (py "-- rollback: drop") = false /\
  str_in (py "-- Rollback:") (py "--  Rollback: drop") = false /\
  str_in (py "-- Rollback:") (py "--Rollback: drop") = false /\
  str_in (py "-- Rollback:") (py "-- Rollback :") = false /\
  str_in (py "-- Rollback:") [] = false.
Proof. vm_compute. auto 10. Qed.

(** The error of the first failing read wins, and a path outside the
    checkout makes the loop raise before anything is read. *)
Example scenario_abort_order :
  main repo demo_abort_order =
  (Raised PermissionError,
   World (fs demo_abort_order) [] []
     [OpExists [py "repo"; py "backend"; py "migrations"];
      OpScandir [py "repo"; py "backend"; py "migrations"];
      OpReadText [py "repo"; py "backend"; py "migrations"; py "a_ok.sql"];
      OpReadText [py "repo"; py "backend"; py "migrations"; py "b_locked.sql"]]) /\
  entry_point repo demo_abort_order = 1%Z /\
  loop_body repo [py "elsewhere"; py "x.sql"] [] demo_c = (Raised ValueError, demo_c).
Proof. vm_compute. auto. Qed.

(** Names are visited in the order of their code points, the name with an
    undecodable byte last; its line cannot be encoded, so the report stops
    after the two lines before it. *)
Example scenario_code_points :
  syscalls (main repo demo_code_points).2 =
    [OpExists [py "repo"; py "backend"; py "migrations"];
     OpScandir [py "repo"; py "backend"; py "migrations"];
     OpReadText [py "repo"; py "backend"; py "migrations"; py "z.sql"];
     OpReadText [py "repo"; py "backend"; py "migrations"; [233%N] ++ py ".sql"];
     OpReadText [py "repo"; py "backend"; py "migrations"; [56448%N] ++ py ".sql"]] /\
  (main repo demo_code_points).1 = Raised UnicodeEncodeError /\
  lines_of (stdout (main repo demo_code_points).2) =
    [py "The following migrations are missing a '-- Rollback:' guidance block:";
     py "  - backend/migrations/z.sql";
     py "  - backend/migrations/" ++ [233%N] ++ py ".sql"] /\
  stderr (main repo demo_code_points).2 = [].
Proof. vm_compute. auto. Qed.

(** The existence test below a directory that may not be searched raises;
    a directory that may not be listed matches nothing; a dangling link
    that the glob matches cannot be read. *)
Example scenario_permissions :
  main repo demo_denied =
    (Raised PermissionError,
     World (fs demo_denied) [] [] [OpExists [py "repo"; py "backend"; py "migrations"]]) /\
  (main repo demo_unlistable).1 = Returned 0%Z /\
  (main repo demo_dangling).1 = Raised FileNotFoundError.
Proof. vm_compute. auto. Qed.

(** The diagnostic of the missing directory escapes what standard error
    cannot encode. *)
Example scenario_missing_escaped :
  stderr (main [py "r" ++ [56448%N]] (boot (folder []))).2 =
    py "Missing migrations directory: /r\udc80/backend/migrations" ++ [LF].
Proof. vm_compute. reflexivity. Qed.
